(** * Pymakr: device session, file transfer and utility helpers

    A shallow embedding of the parts of the Pymakr extension that its
    specification talks about:

    - [Misc]: the helpers [once], [objToSerializedEntries] and
      [serializedEntriesToObj] of [utils/misc.js];
    - [Session]: [Device.connect], [Device.disconnect] and
      [Device.updateConnection] of [src/Device.js], together with the timer
      branch of [waitFor], as a step function over an explicit world (device
      fields, promises, suspended async bodies, clock);
    - [Transfer]: [Device._uploadFile], [_uploadDir], [_upload], [upload] and
      the [downloadProject] command, as programs over an adapter oracle;
    - [Helpers], [Queue], [Throttle], [WaitFor]: the array, object and path
      helpers, [createQueue], [createThrottledFunction] and all branches of
      [waitFor] of [utils/misc.js];
    - [Policy], [Commands], [Erase]: the auto-connect policy of
      [updateConnection] and the upload and erase commands.  *)

From Stdlib Require Import Ascii.
From stdpp Require Import gmap strings list fin_maps.

Set Warnings "-register-all".

(** ** JavaScript values that cross the modelled code *)

Module Js.

(** Values that are thrown, resolved or stored by the modelled functions.
    [VError m] is an [Error] instance with [message] [m]; [VOpaque n] stands
    for any other object (board info, buffers, adapters). *)
Inductive JsVal :=
| VUndefined
| VNull
| VString (s : string)
| VError (message : string)
| VOpaque (n : nat).

#[global] Instance JsVal_eq_dec : EqDecision JsVal.
Proof. solve_decision. Defined.

(** [err.message]: defined on [Error] instances only. *)
Definition message_of (v : JsVal) : option string :=
  match v with
  | VError m => Some m
  | _ => None
  end.

(** [Array.prototype.join]: elements are separated by [sep]. *)
Fixpoint join (sep : string) (l : list string) : string :=
  match l with
  | [] => ""
  | [x] => x
  | x :: t => x +:+ sep +:+ join sep t
  end.

(** [String.prototype.split] with a one-character separator. *)
Fixpoint split (sep : ascii) (s : string) : list string :=
  match s with
  | EmptyString => [EmptyString]
  | String c rest =>
      if Ascii.eqb c sep then EmptyString :: split sep rest
      else match split sep rest with
           | [] => [String c EmptyString]
           | h :: t => String c h :: t
           end
  end.

(** Does character [c] occur in [s]? *)
Fixpoint has_char (c : ascii) (s : string) : bool :=
  match s with
  | EmptyString => false
  | String d rest => Ascii.eqb d c || has_char c rest
  end.

(** [String.prototype.includes]: [needle] occurs in [s] as a substring. *)
Fixpoint includes (needle s : string) : bool :=
  String.prefix needle s ||
  match s with
  | EmptyString => false
  | String _ rest => includes needle rest
  end.

End Js.

(** ** utils/misc.js *)

Module Misc.
Import Js.

(** *** once *)

Section Once.
(** [St] is whatever state the wrapped function can read and write,
    [Ctx] the type of the optional [context], [Exn] what it may throw. *)
Context {St Ctx Args Res Exn : Type}.

(** A JavaScript function: it receives [this] and its arguments, may
    change the state, and either returns or throws. (It does not call the
    wrapper that [once] makes of it.) *)
Definition JsFun := option Ctx → Args → St → (Res + Exn) * St.

(** The closure variables [expired] and [result] of one wrapper;
    [result] is [None] while it is still [undefined]. *)
Record OnceState := mkOnce { expired : bool; result : option Res }.


(** What one call of the wrapper yields: the returned value or the
    thrown one, the closure afterwards, the state afterwards, and the
    argument lists [fn] was invoked with during this call. *)
Record CallResult := mkCall {
  returned : option Res + Exn;
  closure : OnceState;
  state : St;
  invoked : list Args
}.

(** One call [(...args) => { if (!expired) result = context ?
    fn.apply(context, args) : fn(...args); expired = true; return
    result }].  A throw of [fn] leaves the function body before
    [expired = true]. *)
Definition call (fn : JsFun) (context : option Ctx) (args : Args)
    (c : OnceState) (s : St) : CallResult :=
  if expired c then mkCall (inl (result c)) (mkOnce true (result c)) s []
  else
    match fn context args s with
    | (inl r, s') => mkCall (inl (Some r)) (mkOnce true (Some r)) s' [args]
    | (inr e, s') => mkCall (inr e) c s' [args]
    end.

(** A sequence of calls of the same wrapper, oldest first: the values
    returned or thrown, and the final call record. *)
Fixpoint calls (fn : JsFun) (context : option Ctx) (argss : list Args)
    (c : OnceState) (s : St) : list (option Res + Exn) * list Args * St :=
  match argss with
  | [] => ([], [], s)
  | a :: rest =>
      let r := call fn context a c s in
      let '(outs, inv, s') := calls fn context rest (closure r) (state r) in
      (returned r :: outs, invoked r ++ inv, s')
  end.

End Once.



(** *** objToSerializedEntries / serializedEntriesToObj *)

(** A property value of a flat object: a string, or [undefined]. *)
Inductive PropVal :=
| PUndefined
| PString (s : string).

#[global] Instance PropVal_eq_dec : EqDecision PropVal.
Proof. solve_decision. Defined.

(** How [join] prints an element: [undefined] prints as the empty string. *)
Definition prop_to_string (v : PropVal) : string :=
  match v with
  | PUndefined => ""
  | PString s => s
  end.

(** [Object.entries(obj).map((entr) => entr.join("="))].  The object is a
    finite map; its enumeration order is the map's. *)
Definition objToSerializedEntries (obj : gmap string PropVal) : list string :=
  (λ entr : string * PropVal, join "=" [entr.1; prop_to_string entr.2])
    <$> map_to_list obj.

(** One [[key, value]] pair as [Object.fromEntries] reads it off an array:
    element 0 is the key, element 1 the value, a missing element is
    [undefined]. *)
Definition entry_of_array (parts : list string) : string * PropVal :=
  (default "undefined" (parts !! 0),
   from_option PString PUndefined (parts !! 1)).

(** [Object.fromEntries]: later pairs overwrite earlier ones. *)
Definition fromEntries (pairs : list (string * PropVal)) : gmap string PropVal :=
  foldl (λ o p, <[p.1 := p.2]> o) ∅ pairs.

(** [Object.fromEntries(serializedEntries.map((n) => n.split("=")))]. *)
Definition serializedEntriesToObj (serializedEntries : list string)
    : gmap string PropVal :=
  fromEntries (entry_of_array <$> (split "=" <$> serializedEntries)).

(** A flat object all of whose values are strings, with no ['='] in any
    key or value. *)
Definition eq_free (obj : gmap string PropVal) : Prop :=
  ∀ k v, obj !! k = Some v →
    has_char "=" k = false ∧ ∃ s, v = PString s ∧ has_char "=" s = false.

(** [{foo: "FOO", bar: "BAR"}], and an object with ['='] inside a value. *)
Definition sample_obj : gmap string PropVal :=
  <["foo" := PString "FOO"]> (<["bar" := PString "BAR"]> ∅).
Definition equation_obj : gmap string PropVal :=
  <["rule" := PString "a=b"]> ∅.

End Misc.

(** ** src/Device.js: connection life cycle *)

Module Session.
Import Js.

Inductive Protocol := Serial | Telnet.

Definition protocol_name (p : Protocol) : string :=
  match p with Serial => "serial" | Telnet => "telnet" end.

(** The fields of a [Device] that the connection code reads or writes.
    [connectingPromise] is [__connectingPromise]; [None] is [null]. *)
Record Device := mkDevice {
  protocol : Protocol;
  address : string;
  name : string;
  connected : bool;
  connecting : bool;
  online : bool;
  lostConnection : bool;
  info : JsVal;
  connectingPromise : option nat
}.

(** [this.id]: [`${protocol}://${address}`]. *)
Definition id (d : Device) : string :=
  protocol_name (protocol d) +:+ "://" +:+ address d.

Definition set_connected (b : bool) (d : Device) : Device :=
  mkDevice (protocol d) (address d) (name d) b (connecting d) (online d)
    (lostConnection d) (info d) (connectingPromise d).
Definition set_connecting (b : bool) (d : Device) : Device :=
  mkDevice (protocol d) (address d) (name d) (connected d) b (online d)
    (lostConnection d) (info d) (connectingPromise d).
Definition set_online (b : bool) (d : Device) : Device :=
  mkDevice (protocol d) (address d) (name d) (connected d) (connecting d) b
    (lostConnection d) (info d) (connectingPromise d).
Definition set_lostConnection (b : bool) (d : Device) : Device :=
  mkDevice (protocol d) (address d) (name d) (connected d) (connecting d)
    (online d) b (info d) (connectingPromise d).
Definition set_info (v : JsVal) (d : Device) : Device :=
  mkDevice (protocol d) (address d) (name d) (connected d) (connecting d)
    (online d) (lostConnection d) v (connectingPromise d).
Definition set_connectingPromise (p : option nat) (d : Device) : Device :=
  mkDevice (protocol d) (address d) (name d) (connected d) (connecting d)
    (online d) (lostConnection d) (info d) p.

(** How a promise or an awaited call ends. *)
Inductive Settlement :=
| Fulfilled (v : JsVal)
| Rejected (e : JsVal).

Inductive PromiseState :=
| Pending
| Settled (s : Settlement).

#[global] Instance Settlement_eq_dec : EqDecision Settlement.
Proof. solve_decision. Defined.
#[global] Instance PromiseState_eq_dec : EqDecision PromiseState.
Proof. solve_decision. Defined.

(** Asynchronous calls that leave the device object: the three adapter
    methods and the active-device store. *)
Inductive ExtCall :=
| ConnectSerial (addr : string)
| GetBoardInfo
| Disconnect
| SetToLastUsedOrFirstFound.

#[global] Instance ExtCall_eq_dec : EqDecision ExtCall.
Proof. solve_decision. Defined.

(** The places where an async body is suspended; the argument is the
    promise the body settles in the end. *)
Inductive Frame :=
| AfterConnectSerial (p : nat)      (* Device.js:94 *)
| AfterGetBoardInfo (p : nat)       (* Device.js:99 *)
| AfterSetToLastUsed (p : nat)      (* Device.js:101 *)
| AfterDisconnect (p : nat).        (* Device.js:119 *)

(** A suspended body: the call it awaits, the time at which the timer of
    [waitFor] fires (if the await goes through [waitFor]), the value the
    timer rejects with, and where to resume. *)
Record Task := mkTask {
  awaited : nat;
  deadline : option N;
  fallback : JsVal;
  frame : Frame
}.

(** What the code shows to the outside, in order. [ConnectInvoked] marks an
    invocation of [connect()]. *)
Inductive Effect :=
| LogInfo (msg : string)
| LogDebug (msg : string)
| LogError (msg : string) (detail : option string)
| ShowErrorMessage (msg : string)
| ProvidersRefreshed
| ConnectInvoked.

#[global] Instance Effect_eq_dec : EqDecision Effect.
Proof. solve_decision. Defined.

(** The record kept under [pymakr.devices.<id>.state]. *)
Record SavedState := mkSaved { saved_connected : bool; saved_name : string }.

Record World := mkWorld {
  dev : Device;
  now : N;                                  (* clock, in ms *)
  fresh : nat;                              (* next promise or call id *)
  promises : gmap nat PromiseState;
  tasks : list Task;
  issued : list (nat * ExtCall);            (* calls made, oldest first *)
  workspaceState : gmap string SavedState;
  deviceAutoConnect : option string;        (* this.config.get().autoConnect *)
  globalAutoConnect : option string;        (* pymakr.config.get().get("autoConnect") *)
  trace : list Effect                       (* oldest first *)
}.

Definition with_dev (f : Device → Device) (w : World) : World :=
  mkWorld (f (dev w)) (now w) (fresh w) (promises w) (tasks w) (issued w)
    (workspaceState w) (deviceAutoConnect w) (globalAutoConnect w) (trace w).
Definition with_now (n : N) (w : World) : World :=
  mkWorld (dev w) n (fresh w) (promises w) (tasks w) (issued w)
    (workspaceState w) (deviceAutoConnect w) (globalAutoConnect w) (trace w).
Definition with_fresh (n : nat) (w : World) : World :=
  mkWorld (dev w) (now w) n (promises w) (tasks w) (issued w)
    (workspaceState w) (deviceAutoConnect w) (globalAutoConnect w) (trace w).
Definition with_promises (m : gmap nat PromiseState) (w : World) : World :=
  mkWorld (dev w) (now w) (fresh w) m (tasks w) (issued w)
    (workspaceState w) (deviceAutoConnect w) (globalAutoConnect w) (trace w).
Definition with_tasks (l : list Task) (w : World) : World :=
  mkWorld (dev w) (now w) (fresh w) (promises w) l (issued w)
    (workspaceState w) (deviceAutoConnect w) (globalAutoConnect w) (trace w).
Definition with_issued (l : list (nat * ExtCall)) (w : World) : World :=
  mkWorld (dev w) (now w) (fresh w) (promises w) (tasks w) l
    (workspaceState w) (deviceAutoConnect w) (globalAutoConnect w) (trace w).
Definition with_workspaceState (m : gmap string SavedState) (w : World) : World :=
  mkWorld (dev w) (now w) (fresh w) (promises w) (tasks w) (issued w)
    m (deviceAutoConnect w) (globalAutoConnect w) (trace w).
Definition emit (e : Effect) (w : World) : World :=
  mkWorld (dev w) (now w) (fresh w) (promises w) (tasks w) (issued w)
    (workspaceState w) (deviceAutoConnect w) (globalAutoConnect w)
    (trace w ++ [e]).

(** [new Promise(...)]. *)
Definition new_promise (w : World) : nat * World :=
  (fresh w, with_fresh (S (fresh w)) (with_promises (<[fresh w := Pending]> (promises w)) w)).

(** [resolve(v)] / [reject(e)]: only a pending promise changes. *)
Definition settle_promise (p : nat) (s : Settlement) (w : World) : World :=
  match promises w !! p with
  | Some Pending => with_promises (<[p := Settled s]> (promises w)) w
  | _ => w
  end.

(** Start an asynchronous call; its result arrives later as an event. *)
Definition issue (c : ExtCall) (w : World) : nat * World :=
  (fresh w, with_fresh (S (fresh w)) (with_issued (issued w ++ [(fresh w, c)]) w)).

(** [await waitFor(primaryPromise, timeAllowance, fallbackActionOrErr)]
    with a number as allowance and a value that is not a function as
    fallback: [setTimeout(() => rej(fallbackActionOrErr), timeAllowance)]
    raced against the primary promise; the body is suspended on the race
    and resumes at [k]. *)
Definition waitFor (primaryPromise : nat) (timeAllowance : N)
    (fallbackActionOrErr : JsVal) (k : Frame) (w : World) : World :=
  with_tasks
    (tasks w ++ [mkTask primaryPromise (Some (now w + timeAllowance)%N) fallbackActionOrErr k]) w.

(** [await primaryPromise], without a timer. *)
Definition await (primaryPromise : nat) (k : Frame) (w : World) : World :=
  with_tasks (tasks w ++ [mkTask primaryPromise None VUndefined k]) w.

(** [handleState]: the key of this device's record. *)
Definition state_key (d : Device) : string :=
  "pymakr.devices." +:+ id d +:+ ".state".

(** [saveState()]: [workspaceState.update(key, cherryPick(this,
    ["connected", "name"]))]. *)
Definition saveState (w : World) : World :=
  with_workspaceState
    (<[state_key (dev w) := mkSaved (connected (dev w)) (name (dev w))]>
       (workspaceState w)) w.

(** [loadState().connected], as a truth value: [handleState] returns
    [state || {}], so an absent record reads as not connected. *)
Definition loadState_connected (w : World) : bool :=
  match workspaceState w !! state_key (dev w) with
  | Some st => saved_connected st
  | None => false
  end.

(** [changed()]: the store notifies [onChanged], which saves the state and
    refreshes both providers. *)
Definition changed (w : World) : World :=
  emit ProvidersRefreshed (saveState w).

(** The [catch] block of [connect]. *)
Definition connect_catch (p : nat) (err : JsVal) (w : World) : World :=
  let error0 := "Failed to connect to " +:+ address (dev w) +:+ "." in
  let msg := default "" (message_of err) in
  let w := emit (ShowErrorMessage
                   (join " - " [error0; msg; "Please see developer logs for more info."])) w in
  let w := emit (LogError error0 (message_of err)) w in
  settle_promise p (Rejected err) w.

(** Resume a suspended body with the outcome of what it awaited. *)
Definition resume (k : Frame) (r : Settlement) (w : World) : World :=
  match k, r with
  | AfterConnectSerial p, Fulfilled _ =>
      let w := with_dev (set_connected true) w in
      let w := with_dev (set_lostConnection false) w in
      let w := changed w in
      let w := emit (LogInfo "connected.") w in
      let '(c, w) := issue GetBoardInfo w in
      waitFor c 10000%N (VString "timed out while getting board info")
        (AfterGetBoardInfo p) w
  | AfterGetBoardInfo p, Fulfilled v =>
      let w := with_dev (set_info v) w in
      let w := emit (LogDebug "boardInfo") w in
      let '(c, w) := issue SetToLastUsedOrFirstFound w in
      await c (AfterSetToLastUsed p) w
  | AfterSetToLastUsed p, Fulfilled _ =>
      settle_promise p (Fulfilled VUndefined) w
  | AfterConnectSerial p, Rejected err
  | AfterGetBoardInfo p, Rejected err
  | AfterSetToLastUsed p, Rejected err =>
      connect_catch p err w
  | AfterDisconnect p, Fulfilled _ =>
      let w := with_dev (set_connected false) w in
      let w := with_dev (set_lostConnection false) w in
      let w := changed w in
      settle_promise p (Fulfilled VUndefined) w
  | AfterDisconnect p, Rejected err =>
      settle_promise p (Rejected err) w
  end.

(** The executor passed to [new Promise] in [connect], up to its first
    [await]. Nothing happens for a protocol other than serial. *)
Definition connect_executor (p : nat) (w : World) : World :=
  match protocol (dev w) with
  | Serial =>
      let w := emit (LogInfo "connecting...") w in
      let '(c, w) := issue (ConnectSerial (address (dev w))) w in
      waitFor c 2000%N (VString "Timed out while connecting.") (AfterConnectSerial p) w
  | Telnet => w
  end.

(** [connect()]. The result is the promise the returned one follows. *)
Definition connect (w : World) : option nat * World :=
  let w := emit ConnectInvoked w in
  if connecting (dev w) then (connectingPromise (dev w), w)
  else
    let w := with_dev (set_connecting true) w in
    let '(p, w) := new_promise w in
    let w := connect_executor p w in
    let w := with_dev (set_connectingPromise (Some p)) w in
    let w := with_dev (set_connecting false) w in
    (connectingPromise (dev w), w).

(** [disconnect()]. The result is the promise of the async function. *)
Definition disconnect (w : World) : nat * World :=
  let '(p, w) := new_promise w in
  let '(c, w) := issue Disconnect w in
  (p, waitFor c 2000%N (VString "Timed out while disconnecting.") (AfterDisconnect p) w).

(** JavaScript truthiness of an optional string. *)
Definition truthy (o : option string) : bool :=
  match o with
  | Some s => negb (String.eqb s "")
  | None => false
  end.

(** [a || b] on optional strings. *)
Definition js_or (a b : option string) : option string :=
  if truthy a then a else b.

(** [updateConnection()]. *)
Definition updateConnection (w : World) : World :=
  if online (dev w) && negb (connected (dev w)) then
    let autoConnect := js_or (deviceAutoConnect w) (globalAutoConnect w) in
    let shouldConnect := bool_decide (autoConnect = Some "always") in
    let shouldResume :=
      bool_decide (autoConnect = Some "lastState") && loadState_connected w in
    let shouldReconnect :=
      bool_decide (autoConnect = Some "onLostConnection") && lostConnection (dev w) in
    if shouldConnect || shouldResume || shouldReconnect then (connect w).2 else w
  else
    let w := with_dev (set_lostConnection (lostConnection (dev w) || connected (dev w))) w in
    let w := with_dev (set_connected false) w in
    changed w.

(** What the surroundings can do to a world: settle a call that was
    issued, or let one millisecond pass. *)
Inductive Event :=
| Settle (c : nat) (r : Settlement)
| Tick.

Definition awaits (c : nat) (t : Task) : bool := Nat.eqb (awaited t) c.

Definition due (n : N) (t : Task) : bool :=
  match deadline t with
  | Some d => N.leb d n
  | None => false
  end.

Definition resume_all (r : Task → Settlement) (ts : list Task) (w : World) : World :=
  foldl (λ w t, resume (frame t) (r t) w) w ts.

(** One event. A result that no body awaits any more is dropped; a timer
    that fires rejects the race with its fallback value. *)
Definition step (w : World) (e : Event) : World :=
  match e with
  | Settle c r =>
      resume_all (λ _, r) (List.filter (awaits c) (tasks w))
        (with_tasks (List.filter (λ t, negb (awaits c t)) (tasks w)) w)
  | Tick =>
      let n := N.succ (now w) in
      resume_all (λ t, Rejected (fallback t)) (List.filter (due n) (tasks w))
        (with_now n (with_tasks (List.filter (λ t, negb (due n t)) (tasks w)) w))
  end.

Definition run (es : list Event) (w : World) : World := foldl step w es.

Definition ticks (n : N) : list Event := replicate (N.to_nat n) Tick.

(** What can be done with a device between two turns of the event loop:
    one of its methods is called, the discovery layer sees it come or go,
    or one event happens. *)
Inductive Op :=
| CallConnect
| CallDisconnect
| CallUpdateConnection
| SeenOnline (b : bool)
| Happens (e : Event).

Definition apply_op (w : World) (o : Op) : World :=
  match o with
  | CallConnect => (connect w).2
  | CallDisconnect => (disconnect w).2
  | CallUpdateConnection => updateConnection w
  | SeenOnline b => with_dev (set_online b) w
  | Happens e => step w e
  end.

(** A device as its constructor leaves it, in a world where nothing is in
    flight. *)
Definition new_world (p : Protocol) (addr nm : string)
    (ws : gmap string SavedState) (devCfg globalCfg : option string) : World :=
  mkWorld (mkDevice p addr nm false false false false VNull None)
    0%N 0 ∅ [] [] ws devCfg globalCfg [].

(** A serial board on COM3, freshly constructed, and the same board once
    it is online and connected. *)
Definition board : World := new_world Serial "COM3" "board" ∅ None None.
Definition board_connected : World :=
  with_dev (set_connected true) (with_dev (set_online true) board).

(** The board seen online again, with [autoConnect] set to ["lastState"]
    for the device and a saved record that says connected. *)
Definition board_resuming : World :=
  with_dev (set_online true)
    (new_world Serial "COM3" "board"
       {["pymakr.devices.serial://COM3.state" := mkSaved true "board"]}
       (Some "lastState") (Some "onLostConnection")).

(** How often [connect()] has been invoked so far. *)
Definition invocations (w : World) : nat :=
  length (List.filter (λ e, bool_decide (e = ConnectInvoked)) (trace w)).

End Session.

(** ** src/Device.js and src/commands/index.js: file transfer *)

Module Transfer.
Import Js.

(** How an awaited operation ends: with a value, with a thrown value, or
    never. *)
Inductive Outcome (A : Type) :=
| Resolves (a : A)
| Rejects (e : JsVal)
| Hangs.
Arguments Resolves {A} a.
Arguments Rejects {A} e.
Arguments Hangs {A}.

(** One entry of [adapter.listFiles]. *)
Record RemoteEntry := mkEntry { filename : string; isDir : bool }.

(** Everything the transfer code does to the board, the local file system
    and the user interface. *)
Inductive Action :=
| Mkdir (path : string)
| PutFile (path data : string)          (* checkIfSimilarBeforeUpload: true *)
| ListFiles (path : string)             (* recursive: true *)
| GetFile (path : string)
| MkdirSync (path : string)             (* recursive: true *)
| WriteFile (path contents : string)
| Log (level msg : string)
| ShowErrorMessage (msg : string).

#[global] Instance Action_eq_dec : EqDecision Action.
Proof. solve_decision. Defined.

(** How a write started with [fs.promises.writeFile] ends. [turn] orders
    the settled writes: [Promise.all] sees a smaller turn first. *)
Inductive WriteOutcome :=
| WriteDone (turn : nat)
| WriteFails (turn : nat) (e : JsVal)
| WriteHangs.

(** The surroundings of the transfer code. Every answer may depend on what
    has been done so far (the list of actions, oldest first). *)
Record Env := mkEnv {
  dirname : string → string;                            (* path.dirname *)
  mkdir : list Action → string → Outcome JsVal;
  putFile : list Action → string → string → Outcome JsVal;
  listFiles : list Action → string → Outcome (list RemoteEntry);
  getFile : list Action → string → Outcome string;
  mkdirSync : list Action → string → option JsVal;      (* [Some e]: throws [e] *)
  writeFile : list Action → string → string → WriteOutcome
}.

(** The local tree that [statSync], [readdirSync] and [readFileSync] see. *)
Inductive ReadResult :=
| ReadOk (data : string)
| ReadThrows (e : JsVal).

Inductive Node :=
| File (read : ReadResult)
| Dir (entries : list (string * Node)).

(** A piece of async code: from the actions so far to an outcome and the
    actions afterwards. *)
Definition Prog (A : Type) := list Action → Outcome A * list Action.

Definition ret {A} (a : A) : Prog A := λ h, (Resolves a, h).
Definition throw {A} (e : JsVal) : Prog A := λ h, (Rejects e, h).
Definition act (a : Action) : Prog unit := λ h, (Resolves tt, h ++ [a]).
Definition bind {A B} (m : Prog A) (k : A → Prog B) : Prog B :=
  λ h, match m h with
       | (Resolves a, h') => k a h'
       | (Rejects e, h') => (Rejects e, h')
       | (Hangs, h') => (Hangs, h')
       end.
(** [try { m } catch (err) { handler(err) }]. *)
Definition try_catch {A} (m : Prog A) (handler : JsVal → Prog A) : Prog A :=
  λ h, match m h with
       | (Rejects e, h') => handler e h'
       | r => r
       end.
(** Await an operation whose outcome the surroundings decide. *)
Definition perform {A} (a : Action) (answer : list Action → Outcome A) : Prog A :=
  λ h, (answer h, h ++ [a]).

Notation "'let!' x ':=' m 'in' k" := (bind m (λ x, k))
  (at level 10, x name, m at level 100, k at level 200).
Notation "m ;;; k" := (bind m (λ _, k))
  (at level 100, right associativity).

(** [s.replace(/\/+/g, "/")]: every run of slashes becomes one slash. *)
Fixpoint collapse_slashes (s : string) : string :=
  match s with
  | EmptyString => EmptyString
  | String c rest =>
      if Ascii.eqb c "/" then
        match rest with
        | String d _ =>
            if Ascii.eqb d "/" then collapse_slashes rest
            else String c (collapse_slashes rest)
        | EmptyString => String c EmptyString
        end
      else String c (collapse_slashes rest)
  end.

(** [s.replace(/^\/flash/, "")]. *)
Definition strip_flash (s : string) : string :=
  if String.prefix "/flash" s then String.substring 6 (String.length s - 6) s else s.

(** [err.message.match("OSError: \\[Errno 17\\] EEXIST")]: the string is
    compiled to a regular expression in which only the brackets are
    escaped, so it matches when the message contains the text below. *)
Definition matches_EEXIST (msg : string) : bool :=
  includes "OSError: [Errno 17] EEXIST" msg.

(** Reading [.message] off a value that has none gives [undefined], and
    calling [.match] on [undefined] throws this. *)
Definition TypeError_match : JsVal :=
  VError "Cannot read properties of undefined (reading 'match')".

(** How a value prints inside [Array.prototype.join]. *)
Definition display (v : JsVal) : string :=
  match v with
  | VUndefined | VNull => ""
  | VString s => s
  | VError m => "Error: " +:+ m
  | VOpaque _ => "[object Object]"
  end.

Definition CRLF : string := String "013" (String "010" EmptyString).

Section WithEnv.
Variable env : Env.

(** [Device._uploadFile(file, destination)]; [read] is what
    [readFileSync(file)] does. *)
Definition _uploadFile (read : ReadResult) (file destination : string) : Prog JsVal :=
  let _destination := collapse_slashes ("/flash/" +:+ destination) in
  let destinationDir := dirname env _destination in
  act (Log "trace" ("uploadFile " +:+ file +:+ " to " +:+ _destination)) ;;;
  let! data := match read with ReadOk d => ret d | ReadThrows e => throw e end in
  try_catch
    (perform (Mkdir destinationDir) (λ h, mkdir env h destinationDir) ;;; ret tt)
    (λ err, match message_of err with
            | Some m => if matches_EEXIST m then ret tt else throw err
            | None => throw TypeError_match
            end) ;;;
  perform (PutFile _destination data) (λ h, putFile env h _destination data).

(** [Device._upload(source, destination)] with [Device._uploadDir]
    inlined as the inner loop: [node] is what [statSync(source)] and
    [readdirSync(source)] find at [source]. *)
Fixpoint _upload (node : Node) (source destination : string) : Prog JsVal :=
  match node with
  | File read => _uploadFile read source destination
  | Dir entries =>
      (fix _uploadDir (es : list (string * Node)) : Prog JsVal :=
         match es with
         | [] => ret VUndefined
         | (file, child) :: rest =>
             _upload child (source +:+ "/" +:+ file) (destination +:+ "/" +:+ file) ;;;
             _uploadDir rest
         end) entries
  end.

(** [statSync(source)] on a path that does not exist. *)
Definition ENOENT (source : string) : JsVal :=
  VError ("ENOENT: no such file or directory, stat '" +:+ source +:+ "'").

(** The function passed to [withProgress] in [upload]. *)
Definition upload_task (root : option Node) (source destination : string) : Prog JsVal :=
  act (Log "info" ("upload " +:+ source +:+ " to " +:+ destination)) ;;;
  match root with
  | Some node => _upload node source destination
  | None => throw (ENOENT source)
  end ;;;
  act (Log "info" "upload completed") ;;;
  ret VUndefined.

(** [Device.upload(source, destination)]; [root] is what is found at
    [source], if anything. [withProgress] settles as its task does. *)
Definition upload (root : option Node) (source destination : string) : Prog JsVal :=
  try_catch
    (act (Log "info" ("copy from " +:+ source +:+ " to " +:+ destination)) ;;;
     upload_task root source destination)
    (λ err,
       let errors := ["failed to upload"; source; "to"; destination;
                      CRLF +:+ "Reason:"; display err] in
       act (ShowErrorMessage (join " " errors)) ;;;
       act (Log "error" (join "," errors)) ;;;
       ret VUndefined).

(** [dirs.forEach((dir) => mkdirSync(dir.destination, { recursive: true }))]. *)
Fixpoint make_dirs (dirs : list string) : Prog unit :=
  match dirs with
  | [] => ret tt
  | d :: rest =>
      (λ h, match mkdirSync env h d with
            | None => (Resolves tt, h ++ [MkdirSync d])
            | Some e => (Rejects e, h ++ [MkdirSync d])
            end) ;;;
      make_dirs rest
  end.

(** The [for] loop of [downloadProject]: fetch each file in turn and
    start its write without awaiting it; the result is [writePromises]. *)
Fixpoint fetch_and_write (files : list (string * string))
    (writePromises : list WriteOutcome) : Prog (list WriteOutcome) :=
  match files with
  | [] => ret writePromises
  | (name, destination) :: rest =>
      let! contents := perform (GetFile name) (λ h, getFile env h name) in
      let! w := perform (WriteFile destination contents)
                  (λ h, Resolves (writeFile env h destination contents)) in
      fetch_and_write rest (writePromises ++ [w])
  end.

(** The rejection [Promise.all] sees first: the failed write with the
    smallest turn, the earlier one in the array on a tie. *)
Fixpoint first_failure (ws : list WriteOutcome) : option (nat * JsVal) :=
  match ws with
  | [] => None
  | WriteFails t e :: rest =>
      match first_failure rest with
      | Some (t', e') => if Nat.ltb t' t then Some (t', e') else Some (t, e)
      | None => Some (t, e)
      end
  | _ :: rest => first_failure rest
  end.

Definition hangs (w : WriteOutcome) : bool :=
  match w with WriteHangs => true | _ => false end.

Definition done (w : WriteOutcome) : bool :=
  match w with WriteDone _ => true | _ => false end.


(** [await Promise.all(writePromises)]. *)
Definition promise_all (ws : list WriteOutcome) : Prog unit :=
  match first_failure ws with
  | Some (_, e) => throw e
  | None => if existsb hangs ws then (λ h, (Hangs, h)) else ret tt
  end.

(** [treeItem.project.folder + fad.filename.replace(/^\/flash/, "")]. *)
Definition destination_of (folder : string) (fad : RemoteEntry) : string :=
  folder +:+ strip_flash (filename fad).

(** The destinations of the directories, and the names and destinations
    of the files, of a listing. *)
Definition dirs_of (folder : string) (l : list RemoteEntry) : list string :=
  snd <$> List.filter (λ f, isDir f.1) ((λ fad, (fad, destination_of folder fad)) <$> l).
Definition files_of (folder : string) (l : list RemoteEntry) : list (string * string) :=
  (λ f, (filename f.1, f.2))
    <$> List.filter (λ f, negb (isDir f.1)) ((λ fad, (fad, destination_of folder fad)) <$> l).

(** The [downloadProject] command up to its last line; [folder] is
    [treeItem.project.folder]. The result is [writePromises]. *)
Definition start_writes (folder : string) : Prog (list WriteOutcome) :=
  let! SourceFilesAndDirs := perform (ListFiles "") (λ h, listFiles env h "") in
  act (Log "debug" "download") ;;;
  make_dirs (dirs_of folder SourceFilesAndDirs) ;;;
  fetch_and_write (files_of folder SourceFilesAndDirs) [].

(** The [downloadProject] command. *)
Definition downloadProject (folder : string) : Prog unit :=
  let! writePromises := start_writes folder in
  promise_all writePromises.

End WithEnv.


(** A plain [dirname] for absolute slash-separated paths, used in the
    examples: everything before the last slash, or ["/"]. *)
Fixpoint drop_last_segment (s : string) : string :=
  match s with
  | EmptyString => EmptyString
  | String c rest =>
      if has_char "/" rest then String c (drop_last_segment rest) else EmptyString
  end.

Definition posix_dirname (s : string) : string :=
  match drop_last_segment s with
  | EmptyString => "/"
  | d => d
  end.

(** A board for the examples: [mkdir] and [putFile] always answer the
    same way, [listFiles] gives [listing], every file can be fetched, local
    directories can be created, and [writes] says how the write to a path
    ends. *)
Definition simple_env (mkdirAnswer putAnswer : Outcome JsVal)
    (listing : list RemoteEntry) (writes : string → WriteOutcome) : Env :=
  mkEnv posix_dirname
    (λ _ _, mkdirAnswer)
    (λ _ _ _, putAnswer)
    (λ _ _, Resolves listing)
    (λ _ f, Resolves ("contents of " +:+ f))
    (λ _ _, None)
    (λ _ p _, writes p).

(** The directory exists already. *)
Definition env_exists : Env :=
  simple_env (Rejects (VError "OSError: [Errno 17] EEXIST")) (Resolves VUndefined)
    [] (λ _, WriteDone 0).

(** The board refuses to create the directory. *)
Definition env_denied : Env :=
  simple_env (Rejects (VError "OSError: [Errno 13] EACCES")) (Resolves VUndefined)
    [] (λ _, WriteDone 0).


(** A board with one directory and two files; the local disk is full when
    [lib/a.py] is written. *)
Definition env_disk_full : Env :=
  simple_env (Resolves VUndefined) (Resolves VUndefined)
    [mkEntry "/flash/lib" true; mkEntry "/flash/main.py" false;
     mkEntry "/flash/lib/a.py" false]
    (λ p, if String.eqb p "proj/lib/a.py" then WriteFails 0 (VError "ENOSPC")
          else WriteDone 1).

End Transfer.

(** ** utils/misc.js: arrays, objects and paths *)

Module Helpers.
Import Js Misc.

(** [arr.includes(val)]. *)
Definition includes_elem `{EqDecision A} (arr : list A) (val : A) : bool :=
  bool_decide (val ∈ arr).

(** [getDifference(arrA, arrB)]. *)
Definition getDifference `{EqDecision A} (arrA arrB : list A) : list A * list A :=
  (List.filter (λ val, negb (includes_elem arrB val)) arrA,
   List.filter (λ val, negb (includes_elem arrA val)) arrB).

(** [obj[key]] on an object without inherited properties: a missing key
    reads as [undefined]. *)
Definition get_prop (obj : gmap string PropVal) (key : string) : PropVal :=
  default PUndefined (obj !! key).


(** [pick(obj, ...props)]:
    [props.reduce((result, prop) => ({ ...result, [prop]: obj[prop] }), {})]. *)
Definition pick (obj : gmap string PropVal) (props : list string)
    : gmap string PropVal :=
  foldl (λ result prop, <[prop := get_prop obj prop]> result) ∅ props.

(** [omit(obj, ...props)]:
    [props.reduce((result, prop) => delete result[prop] && result, { ...obj })]. *)
Definition omit (obj : gmap string PropVal) (props : list string)
    : gmap string PropVal :=
  foldl (λ result prop, delete prop result) obj props.

(** [key + equalSign + value]: string concatenation prints [undefined] by
    its name. *)
Definition concat_value (v : PropVal) : string :=
  match v with
  | PUndefined => "undefined"
  | PString s => s
  end.

(** [serializeKeyValuePairs(obj, equalSign, delimiter)]. *)
Definition serializeKeyValuePairs (obj : gmap string PropVal)
    (equalSign delimiter : string) : string :=
  join delimiter
    ((λ entr : string * PropVal, entr.1 +:+ equalSign +:+ concat_value entr.2)
       <$> map_to_list obj).

(** [s.replace(/\\/g, "/")]. *)
Fixpoint backslashes_to_slashes (s : string) : string :=
  match s with
  | EmptyString => EmptyString
  | String c rest =>
      String (if Ascii.eqb c "\" then "/"%char else c) (backslashes_to_slashes rest)
  end.

Section Paths.
(** [path.resolve], [path.relative], [path.dirname], [path.join] and
    [fs.existsSync] belong to the platform. *)
Variable resolve : string → string.
Variable relative : string → string → string.
Variable dirname : string → string.
Variable join_path : string → string → string.
Variable existsSync : string → bool.

(** [(a, b) => (a.length > b.length ? a : b)]. *)
Definition findLongest (a b : string) : string :=
  if Nat.ltb (String.length b) (String.length a) then a else b.

(** [getNearestParent(parents)(child)]. [reduce] without an initial value
    throws on an empty array: that is [None]. *)
Definition getNearestParent (parents : list string) (child : string) : option string :=
  let _parents := resolve <$> parents in
  let _child := resolve child in
  match List.filter (λ p, String.prefix p _child) _parents with
  | [] => None
  | p :: ps => Some (foldl findLongest p ps)
  end.

(** [getRelativeFromNearestParent(parents)(child)]. *)
Definition getRelativeFromNearestParent (parents : list string) (child : string)
    : option string :=
  nearestParent ← getNearestParent parents child;
  Some (relative nearestParent child).

(** [getRelativeFromNearestParentPosix(parents)(child)]. *)
Definition getRelativeFromNearestParentPosix (parents : list string) (child : string)
    : option string :=
  backslashes_to_slashes <$> getRelativeFromNearestParent parents child.

(** [getNearestPymakrProjectDir(path)]. The recursion goes up one directory
    per call; [fuel] bounds the number of calls, and the result is [None]
    when it runs out, [Some None] for [null]. *)
Fixpoint getNearestPymakrProjectDir (fuel : nat) (path : string) : option (option string) :=
  match fuel with
  | 0 => None
  | S fuel =>
      let configPath := join_path path "pymakr.conf" in
      if existsSync configPath then Some (Some path)
      else
        let parentDir := dirname path in
        if bool_decide (parentDir ≠ path) then getNearestPymakrProjectDir fuel parentDir
        else Some None
  end.

(** The directories [getNearestPymakrProjectDir] looks at: [path], its
    parent, and so on. *)
Fixpoint ancestor (n : nat) (path : string) : string :=
  match n with
  | 0 => path
  | S n => ancestor n (dirname path)
  end.

(** There is a [pymakr.conf] in [path]. *)
Definition has_conf (path : string) : bool :=
  existsSync (join_path path "pymakr.conf").

(** [dirname] leads to a directory that is its own parent, or to a shorter
    path. *)
Definition dirname_shrinks : Prop :=
  ∀ p, dirname (dirname p) = dirname p ∨ String.length (dirname p) < String.length p.

End Paths.

(** Stand-ins for the platform in the examples: paths that are resolved
    already, [join] with a slash, a [relative] that cuts the parent off, and
    a disk with one project in [/home/me/proj]. *)
Definition resolved (p : string) : string := p.
Definition slash_join (a b : string) : string := a +:+ "/" +:+ b.
Definition cut_parent (from to : string) : string :=
  String.substring (S (String.length from)) (String.length to) to.
Definition one_project (p : string) : bool :=
  String.eqb p "/home/me/proj/pymakr.conf".

End Helpers.

(** ** utils/misc.js: createQueue *)

Module Queue.

(** The variables of one queue made by [createQueue()], and a record of
    what it has done. Callers are numbered in the order of their calls. *)
Record State := mkState {
  queue : list nat;       (* [queue]: the [resolve] of each waiting caller *)
  isRunning : bool;
  current : option nat;   (* the caller whose [imDone] the loop awaits *)
  resumed : bool;         (* that [imDone] was called; the loop has yet to go on *)
  callers : nat;          (* calls so far *)
  granted : list nat;     (* callers handed their [imDone], oldest first *)
  finished : list nat     (* callers whose [imDone] ended their turn, oldest first *)
}.

Definition createQueue : State := mkState [] false None false 0 [] [].

(** One round of [while (queue.length) { await new Promise((resolve) => {
    const entry = queue.shift(); entry(resolve) }) }], up to the [await];
    with an empty queue the loop ends and [isRunning = false] follows. *)
Definition loop (s : State) : State :=
  match queue s with
  | [] => mkState [] false None false (callers s) (granted s) (finished s)
  | entry :: rest =>
      mkState rest true (Some entry) false (callers s) (granted s ++ [entry]) (finished s)
  end.

(** [runQueue()]. *)
Definition runQueue (s : State) : State :=
  if isRunning s then s
  else loop (mkState (queue s) true (current s) (resumed s) (callers s) (granted s) (finished s)).

(** A call of the queue: [new Promise((resolve) => { queue.push(resolve);
    runQueue() })]. *)
Definition call (s : State) : State :=
  runQueue (mkState (queue s ++ [callers s]) (isRunning s) (current s) (resumed s)
              (S (callers s)) (granted s) (finished s)).

(** Caller [c] calls its [imDone]: the promise the loop awaits is resolved
    if it is the one made for [c] and still pending; otherwise nothing
    happens. *)
Definition imDone (c : nat) (s : State) : State :=
  if bool_decide (current s = Some c) then
    mkState (queue s) (isRunning s) None true (callers s) (granted s) (finished s ++ [c])
  else s.

(** The loop goes on after its [await]. *)
Definition continue (s : State) : State :=
  if resumed s then
    loop (mkState (queue s) (isRunning s) (current s) false (callers s) (granted s) (finished s))
  else s.

Inductive Op :=
| Call
| ImDone (c : nat)
| Continue.

Definition step (s : State) (o : Op) : State :=
  match o with
  | Call => call s
  | ImDone c => imDone c s
  | Continue => continue s
  end.

Definition run (ops : list Op) : State := foldl step createQueue ops.

(** What every state of a queue satisfies. *)
Definition Inv (s : State) : Prop :=
  granted s ++ queue s = seq 0 (callers s)
  ∧ granted s = finished s ++ option_list (current s)
  ∧ (isRunning s = true ↔ is_Some (current s) ∨ resumed s = true)
  ∧ (is_Some (current s) → resumed s = false)
  ∧ (isRunning s = false → queue s = []).

End Queue.

(** ** utils/misc.js: createThrottledFunction *)

Module Throttle.
Import Js Session.

Section Throttled.
(** The parameters [fn] takes. *)
Context {Params : Type}.

(** The variables of one function made by [createThrottledFunction(fn,
    time)], and a record of what it has done. Promises are numbered in the
    order of the calls that returned them. *)
Record State := mkState {
  isRunning : bool;
  subs : list nat;                      (* [subs]: the promises still to settle *)
  timers : list Params;                 (* pending [setTimeout] callbacks and their [params] *)
  running : list Params;                (* invocations of [fn] that are awaited *)
  calls : nat;                          (* calls so far *)
  invoked : list Params;                (* what [fn] was invoked with, oldest first *)
  settled : list (nat * Settlement)     (* promises settled, oldest first *)
}.

Definition createThrottledFunction : State := mkState false [] [] [] 0 [] [].

(** [fnWrapper(...params)]. *)
Definition fnWrapper (params : Params) (s : State) : State :=
  let subs' := subs s ++ [calls s] in
  if isRunning s then
    mkState true subs' (timers s) (running s) (S (calls s)) (invoked s) (settled s)
  else
    mkState true subs' (timers s ++ [params]) (running s) (S (calls s)) (invoked s) (settled s).

(** The timer fires: [fn(...params)] is invoked and awaited. *)
Definition timer_fires (s : State) : State :=
  match timers s with
  | [] => s
  | params :: rest =>
      mkState (isRunning s) (subs s) rest (running s ++ [params]) (calls s)
        (invoked s ++ [params]) (settled s)
  end.

(** [fn] settles: every subscriber is resolved or rejected with the
    outcome, [subs.splice(0)], [isRunning = false]. *)
Definition fn_settles (r : Settlement) (s : State) : State :=
  match running s with
  | [] => s
  | _ :: rest =>
      mkState false [] (timers s) rest (calls s) (invoked s)
        (settled s ++ ((λ sub, (sub, r)) <$> subs s))
  end.

Inductive Op :=
| Called (params : Params)
| TimerFires
| FnSettles (r : Settlement).

Definition step (s : State) (o : Op) : State :=
  match o with
  | Called params => fnWrapper params s
  | TimerFires => timer_fires s
  | FnSettles r => fn_settles r s
  end.

Definition run (ops : list Op) (s : State) : State := foldl step s ops.

(** Nothing is scheduled, nothing runs, nobody waits. *)
Definition idle (s : State) : Prop :=
  isRunning s = false ∧ subs s = [] ∧ timers s = [] ∧ running s = [].

(** What every state of a throttled function satisfies. *)
Definition Inv (s : State) : Prop :=
  length (timers s) + length (running s) ≤ 1
  ∧ (isRunning s = true ↔ timers s ≠ [] ∨ running s ≠ [])
  ∧ (subs s ≠ [] → isRunning s = true)
  ∧ (settled s).*1 ++ subs s = seq 0 (calls s).

End Throttled.

Arguments State : clear implicits.
Arguments Op : clear implicits.

End Throttle.

(** ** src/Device.js: the auto-connect policy *)

Module Policy.
Import Js Session.

(** The condition under which [updateConnection] calls [connect()]. *)
Definition should_connect (w : World) : Prop :=
  let autoConnect := js_or (deviceAutoConnect w) (globalAutoConnect w) in
  autoConnect = Some "always"
  ∨ (autoConnect = Some "lastState" ∧ loadState_connected w = true)
  ∨ (autoConnect = Some "onLostConnection" ∧ lostConnection (dev w) = true).

(** A board on the network, and a serial board that is seen online with
    [autoConnect] set to ["always"] in the settings. *)
Definition telnet_board : World :=
  new_world Telnet "192.168.0.7" "wifi board" ∅ None None.
Definition board_always : World :=
  with_dev (set_online true) (new_world Serial "COM3" "board" ∅ None (Some "always")).

End Policy.

(** ** src/commands/index.js: upload commands; paths on the board *)

Module Commands.
Import Js Transfer.

(** Two slashes in a row somewhere in [s]. *)
Fixpoint has_double_slash (s : string) : bool :=
  match s with
  | EmptyString => false
  | String c rest =>
      (Ascii.eqb c "/" && String.prefix "/" rest) || has_double_slash rest
  end.

(** The files under a local tree in the order [_upload] visits them, each
    with its path, its destination and what reading it gives. *)
Fixpoint file_list (node : Node) (source destination : string)
    : list (string * string * ReadResult) :=
  match node with
  | File read => [(source, destination, read)]
  | Dir entries =>
      (fix go (es : list (string * Node)) : list (string * string * ReadResult) :=
         match es with
         | [] => []
         | (file, child) :: rest =>
             file_list child (source +:+ "/" +:+ file) (destination +:+ "/" +:+ file)
               ++ go rest
         end) entries
  end.

(** What a complete [_uploadFile] does: the trace line, [mkdir] of the
    directory, [putFile] of the data. *)
Definition upload_actions (dirname : string → string) (f : string * string * ReadResult)
    : list Action :=
  let _destination := collapse_slashes ("/flash/" +:+ f.1.2) in
  Log "trace" ("uploadFile " +:+ f.1.1 +:+ " to " +:+ _destination)
  :: match f.2 with
     | ReadOk data => [Mkdir (dirname _destination); PutFile _destination data]
     | ReadThrows _ => []
     end.

Section WithEnv.
Variable env : Env.

(** The [upload] command: [withProgress] around [device.upload(fsPath,
    destination)], in a [try] whose [catch] reports the error.
    [progress.report] only updates the notification. *)
Definition command_upload (root : option Node) (fsPath destination : string) : Prog JsVal :=
  try_catch
    (upload env root fsPath destination ;;; ret VUndefined)
    (λ err,
       let errors := ["failed to upload"; fsPath; "to"; destination;
                      CRLF +:+ "Reason:"; display err] in
       act (ShowErrorMessage (join " " errors)) ;;;
       act (Log "error" (join "," errors)) ;;;
       ret VUndefined).

(** The board creates directories (or has them already) and takes every
    file. *)
Definition willing : Prop :=
  (∀ h p, (∃ v, mkdir env h p = Resolves v)
          ∨ ∃ m, mkdir env h p = Rejects (VError m) ∧ matches_EEXIST m = true)
  ∧ (∀ h p data, ∃ v, putFile env h p data = Resolves v).

End WithEnv.

(** A project folder with a script and a library. *)
Definition sample_project : Node :=
  Dir [("main.py", File (ReadOk "a")); ("lib", Dir [("x.py", File (ReadOk "b"))])].

End Commands.

(** ** utils/misc.js: waitFor, all branches *)

Module WaitFor.
Import Js.
Export Session (Settlement, Fulfilled, Rejected).

(** [typeof timeAllowance === "number"], or a promise. *)
Inductive Allowance := Millis | UntilPromise.

(** [typeof fallbackActionOrErr != "function"], or a function. *)
Inductive Fallback := ErrorValue (e : JsVal) | Action.

(** One call of [waitFor]: its arguments, its two promises and its local
    state. *)
Record State := mkState {
  timeAllowance : Allowance;
  fallbackActionOrErr : Fallback;
  race : option Settlement;             (* the promise [waitFor] returns *)
  fallbackPromise : option Settlement;
  primarySettled : bool;
  allowanceSettled : bool;
  timeout : bool;                       (* the timer is pending *)
  resolved : bool;                      (* [resolved] of the promise branch *)
  actions : nat;                        (* calls of [fallbackActionOrErr] *)
  awaited : nat                         (* of which still awaited *)
}.

(** [waitFor(primaryPromise, timeAllowance, fallbackActionOrErr)] up to
    its [return]. *)
Definition waitFor (a : Allowance) (f : Fallback) : State :=
  mkState a f None None false false
    (match a with Millis => true | UntilPromise => false end) false 0 0.

(** Settling a promise that is settled already changes nothing. *)
Definition first_of (old : option Settlement) (r : Settlement) : option Settlement :=
  match old with
  | Some _ => old
  | None => Some r
  end.

(** Both [fallbackPromise] and the race see an outcome of the fallback. *)
Definition settle_fallback (r : Settlement) (s : State) : State :=
  mkState (timeAllowance s) (fallbackActionOrErr s) (first_of (race s) r)
    (first_of (fallbackPromise s) r) (primarySettled s) (allowanceSettled s)
    (timeout s) (resolved s) (actions s) (awaited s).

(** [action()]: reject with the value, or call the function and await it. *)
Definition action (s : State) : State :=
  match fallbackActionOrErr s with
  | ErrorValue e => settle_fallback (Rejected e) s
  | Action =>
      mkState (timeAllowance s) (fallbackActionOrErr s) (race s) (fallbackPromise s)
        (primarySettled s) (allowanceSettled s) (timeout s) (resolved s)
        (S (actions s)) (S (awaited s))
  end.

Inductive Event :=
| PrimarySettles (r : Settlement)
| TimerFires
| AllowanceSettles
| ActionSettles (r : Settlement).

Definition is_fulfilled (r : Settlement) : bool :=
  match r with Fulfilled _ => true | Rejected _ => false end.

Definition step (s : State) (e : Event) : State :=
  match e with
  | PrimarySettles r =>
      if primarySettled s then s
      else
        mkState (timeAllowance s) (fallbackActionOrErr s) (first_of (race s) r)
          (fallbackPromise s) true (allowanceSettled s)
          (* [primaryPromise.then(() => clearTimeout(timeout))] *)
          (match timeAllowance s with
           | Millis => timeout s && negb (is_fulfilled r)
           | UntilPromise => timeout s
           end)
          (* [primaryPromise.finally(() => (resolved = true))] *)
          (match timeAllowance s with
           | Millis => resolved s
           | UntilPromise => true
           end)
          (actions s) (awaited s)
  | TimerFires =>
      if timeout s then
        action (mkState (timeAllowance s) (fallbackActionOrErr s) (race s)
                  (fallbackPromise s) (primarySettled s) (allowanceSettled s)
                  false (resolved s) (actions s) (awaited s))
      else s
  | AllowanceSettles =>
      match timeAllowance s with
      | Millis => s
      | UntilPromise =>
          if allowanceSettled s then s
          else
            let s' := mkState (timeAllowance s) (fallbackActionOrErr s) (race s)
                        (fallbackPromise s) (primarySettled s) true
                        (timeout s) (resolved s) (actions s) (awaited s) in
            (* [timeAllowance.finally(() => !resolved && action())] *)
            if resolved s then s' else action s'
      end
  | ActionSettles r =>
      match awaited s with
      | 0 => s
      | S n =>
          settle_fallback r
            (mkState (timeAllowance s) (fallbackActionOrErr s) (race s)
               (fallbackPromise s) (primarySettled s) (allowanceSettled s)
               (timeout s) (resolved s) (actions s) n)
      end
  end.

Definition run (es : list Event) (s : State) : State := foldl step s es.

(** No timer is pending and, with a promise as allowance, the primary
    promise is known to have settled. *)
Definition disarmed (s : State) : Prop :=
  timeout s = false
  ∧ match timeAllowance s with
    | Millis => True
    | UntilPromise => resolved s = true
    end.

End WaitFor.

(** ** src/commands/index.js: eraseDevice *)

Module Erase.
Import Js Transfer.

(** [+ err] in a string concatenation; an [Error] without a message prints
    as its name alone. *)
Definition concat_display (v : JsVal) : string :=
  match v with
  | VUndefined => "undefined"
  | VNull => "null"
  | VString s => s
  | VError m => if String.eqb m "" then "Error" else "Error: " +:+ m
  | VOpaque _ => "[object Object]"
  end.

(** [${__dirname}/../../templates/${templateId}]. *)
Definition templatePath (__dirname templateId : string) : string :=
  __dirname +:+ "/../../templates/" +:+ templateId.

(** The [eraseDevice] command. [remove] is
    [device.adapter.remove("/flash", true)], [root] is what is found at
    the template path. The outer promise is settled by [resolve()] or
    [reject(err)] only: when the [catch] block itself throws, on reading
    [.message] off [undefined] or [null], it is never settled. *)
Definition eraseDevice (env : Env) (remove : Prog JsVal) (root : option Node)
    (__dirname templateId : string) : Prog JsVal :=
  try_catch
    (remove ;;; upload env root (templatePath __dirname templateId) "/" ;;; ret VUndefined)
    (λ err,
       match err with
       | VUndefined | VNull => λ h, (Hangs, h)
       | _ =>
           act (Log "console" ("er, " +:+ default "undefined" (message_of err))) ;;;
           act (ShowErrorMessage ("Could not erase device. Reason: " +:+ concat_display err)) ;;;
           throw err
       end).

End Erase.

(** * Properties *)

(** ** utils/misc.js *)

Module MiscFacts.
Import Js Misc.

(** *** once *)

Section OnceFacts.
Context {St Ctx Args Res Exn : Type}.
Implicit Types (fn : @JsFun St Ctx Args Res Exn) (context : option Ctx).



Lemma call_throws fn context a c s e s' :
  expired c = false →
  fn context a s = (inr e, s') →
  call fn context a c s = mkCall (inr e) c s' [a].
Proof. intros Hc Hfn. unfold call. by rewrite Hc, Hfn. Qed.


End OnceFacts.



(** *** Serialized entries *)

Lemma append_nil (t : string) : "" +:+ t = t.
Proof. reflexivity. Qed.

Lemma append_cons c (s t : string) : String c s +:+ t = String c (s +:+ t).
Proof. reflexivity. Qed.

Lemma split_no_sep c s : has_char c s = false → split c s = [s].
Proof.
  induction s as [|d rest IH]; [done|]. cbn [split has_char].
  intros [Hd Hrest]%orb_false_iff. rewrite Hd. by rewrite (IH Hrest).
Qed.

Lemma split_append c k v :
  has_char c k = false → split c (k +:+ String c v) = k :: split c v.
Proof.
  induction k as [|d rest IH]; cbn [has_char].
  - intros _. rewrite append_nil. cbn [split]. by rewrite Ascii.eqb_refl.
  - intros [Hd Hrest]%orb_false_iff. rewrite append_cons. cbn [split].
    rewrite Hd. by rewrite (IH Hrest).
Qed.

Lemma entry_roundtrip k s :
  has_char "=" k = false → has_char "=" s = false →
  entry_of_array (split "=" (join "=" [k; s])) = (k, PString s).
Proof.
  intros Hk Hs. cbn [join].
  rewrite append_cons, append_nil.
  rewrite (split_append _ _ _ Hk), (split_no_sep _ _ Hs). done.
Qed.

Lemma fromEntries_acc (l : list (string * PropVal)) (acc : gmap string PropVal) :
  NoDup l.*1 →
  foldl (λ o p, <[p.1 := p.2]> o) acc l = list_to_map l ∪ acc.
Proof.
  revert acc. induction l as [|[k v] l IH]; intros acc Hnd; cbn.
  - by rewrite (left_id_L ∅ (∪)).
  - apply NoDup_cons in Hnd as [Hk Hnd]. rewrite (IH _ Hnd).
    rewrite <- insert_union_r by (by apply not_elem_of_list_to_map_1).
    by rewrite insert_union_l.
Qed.

Lemma fromEntries_map_to_list (obj : gmap string PropVal) :
  fromEntries (map_to_list obj) = obj.
Proof.
  unfold fromEntries. rewrite fromEntries_acc by apply NoDup_fst_map_to_list.
  by rewrite (right_id_L ∅ (∪)), list_to_map_to_list.
Qed.

(** C9: for a flat object whose values are strings and whose keys and
    values contain no ['='], [serializedEntriesToObj] undoes
    [objToSerializedEntries]. *)
Theorem serialized_entries_roundtrip (obj : gmap string PropVal) :
  eq_free obj → serializedEntriesToObj (objToSerializedEntries obj) = obj.
Proof.
  intros Hfree. unfold serializedEntriesToObj, objToSerializedEntries.
  rewrite <- !list_fmap_compose.
  rewrite <- (fromEntries_map_to_list obj) at 2. f_equal.
  rewrite <- (list_fmap_id (map_to_list obj)) at 2.
  apply list_fmap_ext. intros i [k v] Hi. cbn.
  assert (obj !! k = Some v) as Hkv.
  { apply elem_of_map_to_list. by eapply list_elem_of_lookup_2. }
  destruct (Hfree k v Hkv) as (Hk & s & -> & Hs).
  by apply entry_roundtrip.
Qed.

Lemma sample_obj_eq_free : eq_free sample_obj.
Proof.
  intros k v. unfold sample_obj. rewrite !lookup_insert_Some, lookup_empty.
  intros [[<- <-]|[_ [[<- <-]|[_ ?]]]]; [| |done];
    (split; [reflexivity | eexists; split; reflexivity]).
Qed.

Lemma serialized_entries_roundtrip_witness :
  eq_free sample_obj
  ∧ serializedEntriesToObj (objToSerializedEntries sample_obj) = sample_obj.
Proof.
  split; [exact sample_obj_eq_free|].
  exact (serialized_entries_roundtrip sample_obj sample_obj_eq_free).
Defined.

(** The two entries of the sample object, as the helpers print and read
    them. *)
Example sample_obj_entries :
  serializedEntriesToObj ["foo=FOO"; "bar=BAR"] = sample_obj
  ∧ ∀ e, e ∈ objToSerializedEntries sample_obj ↔ e = "foo=FOO" ∨ e = "bar=BAR".
Proof.
  split; [by vm_compute|]. intros e.
  assert (objToSerializedEntries sample_obj = ["bar=BAR"; "foo=FOO"]
          ∨ objToSerializedEntries sample_obj = ["foo=FOO"; "bar=BAR"]) as [-> | ->]
    by (vm_compute; auto).
  all: rewrite !elem_of_cons, elem_of_nil; tauto.
Qed.

(** A value with ['='] in it does not survive: only its first part is read
    back. *)
Example equation_obj_not_restored :
  serializedEntriesToObj (objToSerializedEntries equation_obj)
  = <["rule" := PString "a"]> ∅.
Proof. by vm_compute. Qed.

End MiscFacts.

(** ** src/Device.js: connection life cycle *)

Module SessionFacts.
Import Js Session.

(** *** The clock *)

Lemma due_mono n m t : (m ≤ n)%N → due n t = false → due m t = false.
Proof.
  unfold due. destruct (deadline t) as [d|]; [|done].
  intros Hmn Hn. apply N.leb_gt in Hn. apply N.leb_gt. lia.
Qed.

Lemma filter_none {A} (f : A → bool) l :
  Forall (λ x, f x = false) l →
  List.filter f l = [] ∧ List.filter (λ x, negb (f x)) l = l.
Proof.
  induction 1 as [|x l Hx _ [IH1 IH2]]; [done|]. cbn. rewrite Hx. cbn.
  by rewrite IH1, IH2.
Qed.

Lemma with_tasks_same w : with_tasks (tasks w) w = w.
Proof. by destruct w. Qed.

(** A tick that reaches no deadline only advances the clock. *)
Lemma tick_idle w :
  Forall (λ t, due (N.succ (now w)) t = false) (tasks w) →
  step w Tick = with_now (N.succ (now w)) w.
Proof.
  intros Hidle. cbn [step].
  destruct (filter_none _ _ Hidle) as [-> ->].
  by rewrite with_tasks_same.
Qed.

Lemma run_ticks_idle_nat k w :
  Forall (λ t, due (now w + N.of_nat k) t = false) (tasks w) →
  run (replicate k Tick) w = with_now (now w + N.of_nat k) w.
Proof.
  revert w. induction k as [|k IH]; intros w Hidle.
  - change (N.of_nat 0) with 0%N. rewrite N.add_0_r. by destruct w.
  - cbn [replicate run foldl]. rewrite tick_idle.
    + fold (run (replicate k Tick) (with_now (N.succ (now w)) w)).
      rewrite IH.
      * cbn. unfold with_now. cbn. f_equal. lia.
      * cbn. eapply Forall_impl; [exact Hidle|]. intros t Ht.
        eapply due_mono; [|exact Ht]. lia.
    + eapply Forall_impl; [exact Hidle|]. intros t Ht.
      eapply due_mono; [|exact Ht]. lia.
Qed.

(** As long as no deadline is reached, time passes and nothing else
    happens. *)
Lemma run_ticks_idle n w :
  Forall (λ t, due (now w + n) t = false) (tasks w) →
  run (ticks n) w = with_now (now w + n) w.
Proof.
  intros Hidle. unfold ticks.
  rewrite run_ticks_idle_nat; rewrite N2Nat.id; done.
Qed.

Lemma run_app es1 es2 w : run (es1 ++ es2) w = run es2 (run es1 w).
Proof. unfold run. by rewrite foldl_app. Qed.

Lemma ticks_succ n : ticks (N.succ n) = ticks n ++ [Tick].
Proof.
  unfold ticks. rewrite N2Nat.inj_succ.
  generalize (N.to_nat n) as k. induction k as [|k IH]; [done|].
  cbn. by rewrite <- IH.
Qed.

(** With a single suspended body whose timer is set to [d]: the body stays
    suspended for every instant before [d] ... *)
Lemma single_task_waits w t d n :
  tasks w = [t] → deadline t = Some d → (now w + n < d)%N →
  run (ticks n) w = with_now (now w + n) w.
Proof.
  intros Ht Hd Hlt. apply run_ticks_idle. rewrite Ht.
  constructor; [|constructor]. unfold due. rewrite Hd. apply N.leb_gt. lia.
Qed.

(** ... and at [d] its timer fires and the body resumes in its rejection
    path, with the fallback value. *)
Lemma single_task_times_out w t d n :
  tasks w = [t] → deadline t = Some d → (now w + n = d)%N → (0 < n)%N →
  run (ticks n) w
  = resume (frame t) (Rejected (fallback t)) (with_now d (with_tasks [] w)).
Proof.
  intros Ht Hd Hn Hpos.
  replace n with (N.succ (N.pred n)) by lia.
  rewrite ticks_succ, run_app.
  rewrite (single_task_waits w t d) by (done || lia).
  cbn [run foldl step]. cbn [tasks with_now now]. rewrite Ht. cbn [List.filter].
  assert (due (N.succ (now w + N.pred n)) t = true) as ->.
  { unfold due. rewrite Hd. apply N.leb_le. lia. }
  cbn. unfold with_now, with_tasks. cbn. do 3 f_equal. lia.
Qed.

(** With a single suspended body, the arrival of what it awaits resumes it
    with that outcome. *)
Lemma single_task_settles w t c r :
  tasks w = [t] → awaited t = c →
  step w (Settle c r) = resume (frame t) r (with_tasks [] w).
Proof.
  intros Ht Hc. cbn [step]. rewrite Ht. cbn [List.filter].
  unfold awaits. rewrite Hc, Nat.eqb_refl. done.
Qed.

Lemma settle_promise_pending p s w :
  promises w !! p = Some Pending →
  settle_promise p s w = with_promises (<[p := Settled s]> (promises w)) w.
Proof. intros H. unfold settle_promise. by rewrite H. Qed.

(** Unfold the operations on an explicit world down to its fields. *)
Ltac world_norm :=
  cbv beta iota zeta delta
    [connect connect_executor disconnect new_promise issue waitFor await
     changed saveState emit resume connect_catch
     with_dev with_now with_fresh with_promises with_tasks with_issued
     with_workspaceState
     set_connected set_connecting set_online set_lostConnection set_info
     set_connectingPromise
     dev now fresh promises tasks issued workspaceState deviceAutoConnect
     globalAutoConnect trace
     protocol address name connected connecting online lostConnection info
     connectingPromise awaited deadline fallback frame fst snd];
  cbn [app].

Ltac waits := erewrite single_task_waits; [|reflexivity|reflexivity|cbn; lia].
Ltac settles := erewrite single_task_settles; [|reflexivity|reflexivity].
Ltac times_out :=
  erewrite single_task_times_out; [|reflexivity|reflexivity|cbn; reflexivity|lia].
Ltac settled :=
  world_norm; rewrite settle_promise_pending by apply lookup_insert_eq;
  world_norm; rewrite ?lookup_insert_eq.

(** *** connect *)

Lemma settle_promise_dev p s w : dev (settle_promise p s w) = dev w.
Proof. unfold settle_promise. by repeat case_match. Qed.

Lemma resume_connecting k r w : connecting (dev (resume k r w)) = connecting (dev w).
Proof.
  destruct k, r; unfold resume, connect_catch; rewrite ?settle_promise_dev; done.
Qed.

Lemma resume_all_connecting r ts w :
  connecting (dev (resume_all r ts w)) = connecting (dev w).
Proof.
  revert w. induction ts as [|t ts IH]; intros w; [done|].
  cbn. unfold resume_all in IH. by rewrite IH, resume_connecting.
Qed.

Lemma connect_connecting w :
  connecting (dev w) = false → connecting (dev (connect w).2) = false.
Proof.
  intros Hc. unfold connect. cbn [emit dev]. rewrite Hc.
  unfold connect_executor. by destruct w as [[[] ? ? ? ? ? ? ? ?] ? ? ? ? ? ? ? ? ?].
Qed.

Lemma apply_op_connecting w o :
  connecting (dev w) = false → connecting (dev (apply_op w o)) = false.
Proof.
  intros Hc. destruct o as [| | |b|[c r|]]; cbn [apply_op].
  - by apply connect_connecting.
  - done.
  - unfold updateConnection. repeat case_match; try done. by apply connect_connecting.
  - done.
  - cbn [step]. by rewrite resume_all_connecting.
  - cbn [step]. by rewrite resume_all_connecting.
Qed.

(** Whatever is called and whatever happens, [connecting] is false each time
    control is back with the event loop: [connect()] clears the flag before
    it returns, so no later call ever finds it set. *)
Lemma never_connecting p addr nm ws dc gc ops :
  connecting (dev (foldl apply_op (new_world p addr nm ws dc gc) ops)) = false.
Proof.
  induction ops as [|o ops IH] using rev_ind; [done|].
  rewrite foldl_app. cbn [foldl]. by apply apply_op_connecting.
Qed.

(** C1, which the code does not meet: on a serial device with nothing in
    flight, [connect()] leaves [connecting] false as soon as it returns,
    although its promise is pending and its [connectSerial] call is
    unsettled. A second [connect()] at that point therefore issues a second
    [connectSerial] and returns another promise, and both transport
    connects are awaited at the same time. *)
Theorem connect_not_exclusive w :
  protocol (dev w) = Serial → connecting (dev w) = false → tasks w = [] →
  let p := fresh w in
  let w1 := (connect w).2 in
  let w2 := (connect w1).2 in
  (connect w).1 = Some p
  ∧ connecting (dev w1) = false
  ∧ promises w1 !! p = Some Pending
  ∧ awaited <$> tasks w1 = [S p]
  ∧ (connect w1).1 = Some (S (S p))
  ∧ (connect w1).1 ≠ (connect w).1
  ∧ issued w2 = issued w ++ [(S p, ConnectSerial (address (dev w)));
                             (S (S (S p)), ConnectSerial (address (dev w)))]
  ∧ awaited <$> tasks w2 = [S p; S (S (S p))].
Proof.
  destruct w as [[pr ad nm cd cg on lc inf cp] nw fr ps ts iss ws dc gc tr].
  intros Hp Hc Ht. cbn in Hp, Hc, Ht. subst. world_norm.
  rewrite lookup_insert_eq, <- app_assoc. cbn.
  repeat split; try done. intros [= H]. lia.
Qed.

Lemma connect_not_exclusive_witness :
  (protocol (dev board) = Serial ∧ connecting (dev board) = false ∧ tasks board = [])
  ∧ issued (connect (connect board).2).2
    = [(1, ConnectSerial "COM3"); (3, ConnectSerial "COM3")]
  ∧ awaited <$> tasks (connect (connect board).2).2 = [1; 3].
Proof.
  split; [repeat split|].
  pose proof (connect_not_exclusive board eq_refl eq_refl eq_refl) as H.
  cbv zeta in H. destruct H as (_ & _ & _ & _ & _ & _ & H1 & H2).
  split; [exact H1 | exact H2].
Defined.

(** While [connecting] is true, [connect()] does start nothing and hands
    back [__connectingPromise]. *)
Lemma connect_while_connecting w :
  connecting (dev w) = true →
  connect w = (connectingPromise (dev w), emit ConnectInvoked w).
Proof. intros Hc. unfold connect. cbn. by rewrite Hc. Qed.

(** When every step succeeds in time, the promise of [connect] is
    fulfilled and the device is connected. *)
Lemma connect_resolves w n m v i u :
  protocol (dev w) = Serial → connecting (dev w) = false → tasks w = [] →
  (n < 2000)%N → (m < 10000)%N →
  let p := fresh w in
  let w2 := step (run (ticks n) (connect w).2) (Settle (S p) (Fulfilled v)) in
  let w3 := step (run (ticks m) w2) (Settle (S (S p)) (Fulfilled i)) in
  let w' := step w3 (Settle (S (S (S p))) (Fulfilled u)) in
  promises w' !! p = Some (Settled (Fulfilled VUndefined))
  ∧ connected (dev w') = true ∧ lostConnection (dev w') = false
  ∧ info (dev w') = i ∧ tasks w' = [].
Proof.
  destruct w as [[pr ad nm cd cg on lc inf cp] nw fr ps ts iss ws dc gc tr].
  intros Hp Hc Ht Hn Hm. cbn in Hp, Hc, Ht. subst. world_norm.
  erewrite (single_task_waits _ _ _ n); [|reflexivity|reflexivity|cbn; lia].
  erewrite (single_task_settles _ _ (S fr)); [|reflexivity|reflexivity].
  world_norm.
  erewrite (single_task_waits _ _ _ m); [|reflexivity|reflexivity|cbn; lia].
  erewrite (single_task_settles _ _ (S (S fr))); [|reflexivity|reflexivity].
  world_norm. settles. by settled.
Qed.






(** *** disconnect *)

(** C3, as stated, fails: on a connected device, a transport disconnect
    that is rejected, or that is still unsettled after 2000 ms, rejects
    the promise of [disconnect()] and leaves [connected] true. *)
Lemma disconnect_failure_stays_connected :
  let e := VError "port busy" in
  let w := step (disconnect board_connected).2 (Settle 1 (Rejected e)) in
  let w' := run (ticks 2000) (disconnect board_connected).2 in
  issued (disconnect board_connected).2 = [(1, Disconnect)]
  ∧ promises w !! 0 = Some (Settled (Rejected e))
  ∧ connected (dev w) = true
  ∧ promises w' !! 0 = Some (Settled (Rejected (VString "Timed out while disconnecting.")))
  ∧ connected (dev w') = true
  ∧ connected (dev w) ≠ false ∧ connected (dev w') ≠ false.
Proof. vm_compute. repeat split; try reflexivity; discriminate. Qed.

(** C3, as amended: [disconnect()] calls the transport's disconnect under
    a 2000 ms allowance. When that call is fulfilled in time, the device
    ends with [connected] and [lostConnection] false and the promise of
    [disconnect()] is fulfilled. When it is rejected in time, or still
    unsettled at 2000 ms, the promise is rejected (with the error, or the
    timeout text) and both flags are what they were. *)
Theorem disconnect_outcomes w :
  tasks w = [] →
  let p := fresh w in
  let c := S p in
  let w1 := (disconnect w).2 in
  (disconnect w).1 = p
  ∧ issued w1 = issued w ++ [(c, Disconnect)]
  ∧ tasks w1 = [mkTask c (Some (now w + 2000)%N)
                  (VString "Timed out while disconnecting.") (AfterDisconnect p)]
  ∧ (∀ n v, (n < 2000)%N →
       let w2 := step (run (ticks n) w1) (Settle c (Fulfilled v)) in
       promises w2 !! p = Some (Settled (Fulfilled VUndefined))
       ∧ connected (dev w2) = false ∧ lostConnection (dev w2) = false)
  ∧ (∀ n e, (n < 2000)%N →
       let w2 := step (run (ticks n) w1) (Settle c (Rejected e)) in
       promises w2 !! p = Some (Settled (Rejected e))
       ∧ connected (dev w2) = connected (dev w)
       ∧ lostConnection (dev w2) = lostConnection (dev w))
  ∧ (let w2 := run (ticks 2000) w1 in
     promises w2 !! p = Some (Settled (Rejected (VString "Timed out while disconnecting.")))
     ∧ connected (dev w2) = connected (dev w)
     ∧ lostConnection (dev w2) = lostConnection (dev w)).
Proof.
  destruct w as [[pr ad nm cd cg on lc inf cp] nw fr ps ts iss ws dc gc tr].
  intros Ht. cbn in Ht. subst. world_norm.
  do 3 (split; [done|]). split; [|split].
  - intros n v Hn. waits. settles. by settled.
  - intros n e Hn. waits. settles. by settled.
  - times_out. by settled.
Qed.

Lemma disconnect_outcomes_witness :
  tasks board_connected = []
  ∧ connected (dev (step (run (ticks 7) (disconnect board_connected).2)
                      (Settle 1 (Fulfilled VUndefined)))) = false.
Proof.
  split; [reflexivity|].
  pose proof (disconnect_outcomes board_connected eq_refl) as H.
  cbv zeta in H. destruct H as (_ & _ & _ & H & _).
  destruct (H 7%N VUndefined eq_refl) as (_ & H' & _). exact H'.
Defined.

(** *** updateConnection *)

Lemma invocations_emit e w :
  invocations (emit e w)
  = (invocations w + if bool_decide (e = ConnectInvoked) then 1 else 0)%nat.
Proof.
  unfold invocations, emit. cbn [trace].
  rewrite List.filter_app, length_app. cbn [List.filter].
  by destruct (bool_decide (e = ConnectInvoked)).
Qed.

(** Every call of [connect()] is counted once. *)
Lemma connect_invoked_once w : invocations (connect w).2 = S (invocations w).
Proof.
  unfold connect.
  assert (invocations (emit ConnectInvoked w) = S (invocations w)) as Hone.
  { rewrite invocations_emit, bool_decide_eq_true_2 by done. lia. }
  destruct (connecting (dev (emit ConnectInvoked w))); [exact Hone|].
  rewrite <- Hone. unfold connect_executor, invocations.
  destruct w as [[[] ad nm cd cg on lc inf cp] nw fr ps ts iss ws dc gc tr];
    world_norm; [|done].
  rewrite (List.filter_app _ (tr ++ _)). cbn. by rewrite app_nil_r.
Qed.

(** C8: for a device that is online and not connected and whose effective
    [autoConnect] setting is ["lastState"], [updateConnection()] invokes
    [connect()] exactly once when the saved record says connected, and does
    nothing at all when the record says not connected or is absent. *)
Theorem updateConnection_lastState w :
  online (dev w) = true → connected (dev w) = false →
  js_or (deviceAutoConnect w) (globalAutoConnect w) = Some "lastState" →
  (∀ st, workspaceState w !! state_key (dev w) = Some st →
         saved_connected st = true →
         invocations (updateConnection w) = S (invocations w))
  ∧ (∀ st, workspaceState w !! state_key (dev w) = Some st →
           saved_connected st = false →
           updateConnection w = w)
  ∧ (workspaceState w !! state_key (dev w) = None → updateConnection w = w).
Proof.
  intros Hon Hcon Hauto. unfold updateConnection, loadState_connected.
  rewrite Hon, Hcon, Hauto. cbn [negb andb].
  rewrite bool_decide_eq_false_2 by done.
  rewrite (bool_decide_eq_true_2 (Some "lastState" = Some "lastState")) by done.
  rewrite (bool_decide_eq_false_2 (Some "lastState" = Some "onLostConnection")) by done.
  cbn [orb andb].
  split; [|split].
  - intros st -> ->. apply connect_invoked_once.
  - by intros st -> ->.
  - by intros ->.
Qed.

Lemma updateConnection_lastState_witness :
  (online (dev board_resuming) = true ∧ connected (dev board_resuming) = false
   ∧ js_or (deviceAutoConnect board_resuming) (globalAutoConnect board_resuming)
     = Some "lastState")
  ∧ invocations (updateConnection board_resuming) = 1.
Proof.
  split; [repeat split|].
  pose proof (updateConnection_lastState board_resuming eq_refl eq_refl eq_refl) as [H _].
  exact (H (mkSaved true "board") eq_refl eq_refl).
Defined.

End SessionFacts.

(** ** File transfer *)

Module TransferFacts.
Import Js Transfer.

Section WithEnv.
Variable env : Env.

(** *** Upload *)

(** C5: in [_uploadFile], when the board rejects [mkdir] with an error
    whose message matches the already-exists pattern, the error is dropped
    and [putFile] is called, its outcome being the outcome of the upload;
    when the message does not match, the same error is rethrown and the
    upload ends after [mkdir], with no [putFile]. *)
Theorem uploadFile_mkdir_errors data file destination h m :
  let dest := collapse_slashes ("/flash/" +:+ destination) in
  let dir := dirname env dest in
  let h1 := h ++ [Log "trace" ("uploadFile " +:+ file +:+ " to " +:+ dest)] in
  mkdir env h1 dir = Rejects (VError m) →
  (matches_EEXIST m = true →
     _uploadFile env (ReadOk data) file destination h
     = (putFile env (h1 ++ [Mkdir dir]) dest data,
        h1 ++ [Mkdir dir] ++ [PutFile dest data]))
  ∧ (matches_EEXIST m = false →
     _uploadFile env (ReadOk data) file destination h
     = (Rejects (VError m), h1 ++ [Mkdir dir])).
Proof.
  intros dest dir h1 Hmk.
  unfold _uploadFile, bind, try_catch, act, perform, ret, throw.
  fold dest. fold dir. fold h1. rewrite Hmk. cbn [message_of].
  split; intros ->; [|done]. by rewrite <- app_assoc.
Qed.

(** When [mkdir] succeeds the file is transferred as well. *)
Lemma uploadFile_mkdir_ok data file destination h v :
  let dest := collapse_slashes ("/flash/" +:+ destination) in
  let dir := dirname env dest in
  let h1 := h ++ [Log "trace" ("uploadFile " +:+ file +:+ " to " +:+ dest)] in
  mkdir env h1 dir = Resolves v →
  _uploadFile env (ReadOk data) file destination h
  = (putFile env (h1 ++ [Mkdir dir]) dest data, h1 ++ [Mkdir dir] ++ [PutFile dest data]).
Proof.
  intros dest dir h1 Hmk.
  unfold _uploadFile, bind, try_catch, act, perform, ret, throw.
  fold dest. fold dir. fold h1. rewrite Hmk. by rewrite <- app_assoc.
Qed.


(** *** Download *)














End WithEnv.

Lemma uploadFile_mkdir_errors_witness :
  mkdir env_exists [Log "trace" "uploadFile proj/main.py to /flash/main.py"] "/flash"
  = Rejects (VError "OSError: [Errno 17] EEXIST")
  ∧ _uploadFile env_exists (ReadOk "print(1)") "proj/main.py" "/main.py" []
    = (Resolves VUndefined,
       [Log "trace" "uploadFile proj/main.py to /flash/main.py";
        Mkdir "/flash"; PutFile "/flash/main.py" "print(1)"]).
Proof.
  split; [reflexivity|].
  pose proof (uploadFile_mkdir_errors env_exists "print(1)" "proj/main.py" "/main.py" []
                "OSError: [Errno 17] EEXIST" eq_refl) as [H _].
  exact (H eq_refl).
Defined.

(** Any other [mkdir] error ends the upload of that file before [putFile]. *)
Example uploadFile_denied :
  _uploadFile env_denied (ReadOk "print(1)") "proj/main.py" "/main.py" []
  = (Rejects (VError "OSError: [Errno 13] EACCES"),
     [Log "trace" "uploadFile proj/main.py to /flash/main.py"; Mkdir "/flash"]).
Proof. reflexivity. Qed.

(** A thrown value without a [message] cannot be inspected: the [catch]
    block itself throws, and the upload ends before [putFile] as well. *)
Example uploadFile_error_without_message :
  _uploadFile (simple_env (Rejects (VString "busy")) (Resolves VUndefined) [] (λ _, WriteDone 0))
    (ReadOk "print(1)") "proj/main.py" "/main.py" []
  = (Rejects TypeError_match,
     [Log "trace" "uploadFile proj/main.py to /flash/main.py"; Mkdir "/flash"]).
Proof. reflexivity. Qed.

(** A directory is uploaded entry by entry, and the first failure ends it. *)
Example upload_directory :
  _upload env_exists
    (Dir [("main.py", File (ReadOk "a")); ("lib", Dir [("x.py", File (ReadOk "b"))])])
    "proj" "/" []
  = (Resolves VUndefined,
     [Log "trace" "uploadFile proj/main.py to /flash/main.py";
      Mkdir "/flash"; PutFile "/flash/main.py" "a";
      Log "trace" "uploadFile proj/lib/x.py to /flash/lib/x.py";
      Mkdir "/flash/lib"; PutFile "/flash/lib/x.py" "b"]).
Proof. reflexivity. Qed.



Example download_disk_full :
  downloadProject env_disk_full "proj" []
  = (Rejects (VError "ENOSPC"),
     [ListFiles ""; Log "debug" "download"; MkdirSync "proj/lib";
      GetFile "/flash/main.py";
      WriteFile "proj/main.py" "contents of /flash/main.py";
      GetFile "/flash/lib/a.py";
      WriteFile "proj/lib/a.py" "contents of /flash/lib/a.py"]).
Proof. reflexivity. Qed.


End TransferFacts.

Module HelpersFacts.
Import Js Misc Helpers.

(** *** getDifference *)

Lemma elem_of_filter_bool {A} (f : A → bool) (l : list A) x :
  x ∈ List.filter f l ↔ x ∈ l ∧ f x = true.
Proof. rewrite !list_elem_of_In. apply filter_In. Qed.

Lemma filter_bool_nil {A} (f : A → bool) (l : list A) :
  List.filter f l = [] ↔ ∀ x, x ∈ l → f x = false.
Proof.
  induction l as [|y l IH]; cbn.
  - split; [intros _ x Hx; by apply elem_of_nil in Hx | done].
  - destruct (f y) eqn:Hy.
    + split; [done|]. intros H. specialize (H y (list_elem_of_here _ _)). congruence.
    + rewrite IH. split.
      * intros H x [->|Hx]%elem_of_cons; auto.
      * intros H x Hx. apply H. by right.
Qed.

Lemma includes_elem_true `{EqDecision A} (arr : list A) val :
  includes_elem arr val = true ↔ val ∈ arr.
Proof. unfold includes_elem. by rewrite bool_decide_eq_true. Qed.

Lemma getDifference_elem `{EqDecision A} (arrA arrB : list A) x :
  (x ∈ (getDifference arrA arrB).1 ↔ x ∈ arrA ∧ x ∉ arrB)
  ∧ (x ∈ (getDifference arrA arrB).2 ↔ x ∈ arrB ∧ x ∉ arrA).
Proof.
  unfold getDifference. cbn [fst snd]. rewrite !elem_of_filter_bool.
  rewrite !negb_true_iff, <- !not_true_iff_false, !includes_elem_true. done.
Qed.

(** X1: [getDifference] returns two empty arrays exactly when both arrays
    hold the same elements; no element is in both parts; and swapping the
    arguments swaps the parts. *)
Theorem getDifference_same_elements `{EqDecision A} (arrA arrB : list A) :
  (getDifference arrA arrB = ([], []) ↔ ∀ x, x ∈ arrA ↔ x ∈ arrB)
  ∧ (∀ x, x ∈ (getDifference arrA arrB).1 → x ∉ (getDifference arrA arrB).2)
  ∧ getDifference arrB arrA = ((getDifference arrA arrB).2, (getDifference arrA arrB).1).
Proof.
  split; [|split].
  - unfold getDifference. split.
    + intros [= HA HB] x. rewrite filter_bool_nil in HA, HB.
      split; intros Hx.
      * specialize (HA x Hx). apply negb_false_iff, includes_elem_true in HA. done.
      * specialize (HB x Hx). apply negb_false_iff, includes_elem_true in HB. done.
    + intros H. f_equal; apply filter_bool_nil; intros x Hx;
        apply negb_false_iff, includes_elem_true, H, Hx.
  - intros x H1 H2.
    apply (getDifference_elem arrA arrB x) in H1 as [? ?].
    apply (getDifference_elem arrA arrB x) in H2 as [? ?]. done.
  - done.
Qed.

(** *** pick, cherryPick, omit *)

Lemma pick_acc_lookup (obj acc : gmap string PropVal) props k :
  foldl (λ result prop, <[prop := get_prop obj prop]> result) acc props !! k
  = if decide (k ∈ props) then Some (get_prop obj k) else acc !! k.
Proof.
  revert acc. induction props as [|p props IH]; intros acc; cbn [foldl].
  - rewrite decide_False; [done|]. apply not_elem_of_nil.
  - rewrite IH. destruct (decide (k ∈ props)) as [Hin|Hnin].
    + rewrite decide_True; [done|]. by right.
    + destruct (decide (k = p)) as [->|Hne].
      * rewrite decide_True by left. by rewrite lookup_insert_eq.
      * rewrite decide_False by (intros [?|?]%elem_of_cons; done).
        by rewrite lookup_insert_ne.
Qed.

Lemma pick_at (obj : gmap string PropVal) props k :
  pick obj props !! k = if decide (k ∈ props) then Some (get_prop obj k) else None.
Proof.
  unfold pick. rewrite pick_acc_lookup. by destruct (decide (k ∈ props)).
Qed.

Lemma omit_at (obj : gmap string PropVal) props k :
  omit obj props !! k = if decide (k ∈ props) then None else obj !! k.
Proof.
  unfold omit. revert obj. induction props as [|p props IH]; intros obj; cbn [foldl].
  - rewrite decide_False; [done|]. apply not_elem_of_nil.
  - rewrite IH. destruct (decide (k ∈ props)) as [Hin|Hnin].
    + rewrite decide_True; [done|]. by right.
    + destruct (decide (k = p)) as [->|Hne].
      * rewrite decide_True by left. by rewrite lookup_delete_eq.
      * rewrite decide_False by (intros [?|?]%elem_of_cons; done).
        by rewrite lookup_delete_ne.
Qed.


(** X3: [omit(obj, ...props)] has lost every key named in [props] and
    keeps all other keys with their values; it gives [obj] back when [obj]
    has none of them. *)
Theorem omit_lookup (obj : gmap string PropVal) props k :
  omit obj props !! k = (if decide (k ∈ props) then None else obj !! k)
  ∧ ((∀ p, p ∈ props → obj !! p = None) → omit obj props = obj).
Proof.
  split; [apply omit_at|]. intros Hnone. apply map_eq. intros k'.
  rewrite omit_at. destruct (decide (k' ∈ props)) as [Hin|]; [|done].
  by rewrite Hnone.
Qed.

(** X4: when every key of [props] is a key of [obj], [pick] and [omit] cut
    [obj] in two disjoint parts that together give [obj] again, and omitting
    from the picked part what was picked leaves nothing. *)
Theorem pick_omit_partition (obj : gmap string PropVal) props :
  (∀ k, k ∈ props → is_Some (obj !! k)) →
  pick obj props ∪ omit obj props = obj
  ∧ pick obj props ##ₘ omit obj props
  ∧ omit (pick obj props) props = ∅.
Proof.
  intros Hdom. split; [|split].
  - apply map_eq. intros k. rewrite lookup_union, pick_at, omit_at.
    destruct (decide (k ∈ props)) as [Hin|Hnin].
    + destruct (Hdom k Hin) as [v Hv]. unfold get_prop. rewrite Hv. done.
    + by rewrite (left_id_L None _).
  - apply map_disjoint_spec. intros k v1 v2 H1 H2.
    rewrite pick_at in H1. rewrite omit_at in H2. by destruct (decide (k ∈ props)).
  - apply map_eq. intros k. rewrite omit_at, lookup_empty, pick_at.
    by destruct (decide (k ∈ props)).
Qed.

(** *** serializeKeyValuePairs *)

(** X5: on an object whose values are strings, [serializeKeyValuePairs]
    with ["="] is the entries of [objToSerializedEntries] joined by the
    delimiter. *)
Theorem serializeKeyValuePairs_entries (obj : gmap string PropVal) delimiter :
  (∀ k v, obj !! k = Some v → ∃ s, v = PString s) →
  serializeKeyValuePairs obj "=" delimiter
  = join delimiter (objToSerializedEntries obj).
Proof.
  intros Hstr. unfold serializeKeyValuePairs, objToSerializedEntries. f_equal.
  apply list_fmap_ext. intros i [k v] Hi.
  assert (obj !! k = Some v) as Hkv.
  { apply elem_of_map_to_list. by eapply list_elem_of_lookup_2. }
  destruct (Hstr k v Hkv) as [s ->]. reflexivity.
Qed.

Lemma sample_obj_has_foo k : k ∈ ["foo"] → is_Some (sample_obj !! k).
Proof. intros ->%list_elem_of_singleton. by eexists. Qed.

Lemma pick_omit_partition_witness :
  (∀ k, k ∈ ["foo"] → is_Some (sample_obj !! k))
  ∧ pick sample_obj ["foo"] ∪ omit sample_obj ["foo"] = sample_obj.
Proof.
  split; [exact sample_obj_has_foo|].
  exact (proj1 (pick_omit_partition sample_obj ["foo"] sample_obj_has_foo)).
Defined.

Lemma sample_obj_strings k v : sample_obj !! k = Some v → ∃ s, v = PString s.
Proof.
  intros H. destruct (MiscFacts.sample_obj_eq_free k v H) as (_ & s & -> & _). eauto.
Qed.

Lemma serializeKeyValuePairs_entries_witness :
  (∀ k v, sample_obj !! k = Some v → ∃ s, v = PString s)
  ∧ serializeKeyValuePairs sample_obj "=" Transfer.CRLF
    = join Transfer.CRLF (objToSerializedEntries sample_obj).
Proof.
  split; [exact sample_obj_strings|].
  exact (serializeKeyValuePairs_entries sample_obj Transfer.CRLF sample_obj_strings).
Defined.

(** An [undefined] value is where the two serializers part: [join] prints
    it as nothing, string concatenation by its name. *)
Example serializers_differ_on_undefined :
  serializeKeyValuePairs (<["k" := PUndefined]> ∅) "=" ";" = "k=undefined"
  ∧ objToSerializedEntries (<["k" := PUndefined]> ∅) = ["k="].
Proof. by vm_compute. Qed.

End HelpersFacts.

Module PathFacts.
Import Js Misc Helpers HelpersFacts Transfer.

Lemma backslashes_gone s : has_char "\" (backslashes_to_slashes s) = false.
Proof.
  induction s as [|c s IH]; [done|]. cbn [backslashes_to_slashes has_char].
  rewrite IH, orb_false_r. destruct (Ascii.eqb c "\") eqn:Hc; [done|exact Hc].
Qed.

Lemma backslashes_length s :
  String.length (backslashes_to_slashes s) = String.length s.
Proof. induction s as [|c s IH]; [done|]. cbn. by rewrite IH. Qed.

Lemma backslashes_none s :
  has_char "\" s = false → backslashes_to_slashes s = s.
Proof.
  induction s as [|c s IH]; [done|]. cbn [backslashes_to_slashes has_char].
  intros [Hc Hs]%orb_false_iff. by rewrite Hc, IH.
Qed.

Section Paths.
Variable resolve : string → string.
Variable relative : string → string → string.
Variable dirname : string → string.
Variable join_path : string → string → string.
Variable existsSync : string → bool.

Lemma findLongest_fold p ps :
  let r := foldl findLongest p ps in
  (r = p ∨ r ∈ ps)
  ∧ String.length p ≤ String.length r
  ∧ ∀ q, q ∈ ps → String.length q ≤ String.length r.
Proof.
  revert p. induction ps as [|q ps IH]; intros p; cbn [foldl].
  - split; [by left|]. split; [done|]. intros q Hq. by apply elem_of_nil in Hq.
  - destruct (IH (findLongest p q)) as (Hin & Hlen & Hall).
    assert (String.length p ≤ String.length (findLongest p q)
            ∧ String.length q ≤ String.length (findLongest p q)
            ∧ (findLongest p q = p ∨ findLongest p q = q)) as (Hp & Hq & Hpq).
    { unfold findLongest. destruct (Nat.ltb_spec (String.length q) (String.length p));
        repeat split; auto; lia. }
    split; [|split].
    + destruct Hin as [->|Hin]; [|right; by right].
      destruct Hpq as [->| ->]; [by left | right; left].
    + lia.
    + intros q' [->|Hq']%elem_of_cons; [lia | by apply Hall].
Qed.

(** X6: when [getNearestParent] returns, the result is one of the resolved
    parents, the resolved child starts with it, and no parent the child
    starts with is longer; it throws exactly when the child starts with none
    of the parents. *)
Theorem getNearestParent_longest parents child :
  (∀ r, getNearestParent resolve parents child = Some r →
     r ∈ resolve <$> parents
     ∧ String.prefix r (resolve child) = true
     ∧ ∀ p, p ∈ parents → String.prefix (resolve p) (resolve child) = true →
            String.length (resolve p) ≤ String.length r)
  ∧ (getNearestParent resolve parents child = None ↔
     ∀ p, p ∈ parents → String.prefix (resolve p) (resolve child) = false).
Proof.
  unfold getNearestParent.
  destruct (List.filter _ (resolve <$> parents)) as [|q qs] eqn:Hf.
  - split; [done|]. split; [|done]. intros _ p Hp.
    apply filter_bool_nil with (x := resolve p) in Hf; [done|].
    by apply list_elem_of_fmap_2.
  - split; [|split; [done|]].
    + intros r [= <-].
      destruct (findLongest_fold q qs) as (Hin & Hlen & Hall).
      assert (∀ x, x ∈ q :: qs ↔ x ∈ resolve <$> parents
                                   ∧ String.prefix x (resolve child) = true) as Hmem.
      { intros x. rewrite <- Hf.
        apply (elem_of_filter_bool (λ p, String.prefix p (resolve child))). }
      assert (foldl findLongest q qs ∈ q :: qs) as Hr.
      { destruct Hin as [->|Hin]; [left | by right]. }
      apply Hmem in Hr as [Hr1 Hr2]. split; [done|]. split; [done|].
      intros p Hp Hpre.
      assert (resolve p ∈ q :: qs) as [->|Hq]%elem_of_cons.
      { apply Hmem. split; [by apply list_elem_of_fmap_2 | done]. }
      * done.
      * by apply Hall.
    + intros H. assert (q ∈ q :: qs) as Hq by left.
      rewrite <- Hf in Hq.
      apply (elem_of_filter_bool (λ p, String.prefix p (resolve child))) in Hq as [Hq1 Hq2].
      apply list_elem_of_fmap in Hq1 as (p & -> & Hp). rewrite (H p Hp) in Hq2. done.
Qed.

(** X7: what [getRelativeFromNearestParentPosix] returns has no backslash
    in it, and is the relative path from the nearest parent with every
    backslash turned into a slash. *)
Theorem getRelativeFromNearestParentPosix_slashes parents child r :
  getRelativeFromNearestParentPosix resolve relative parents child = Some r →
  has_char "\" r = false
  ∧ ∃ nearest, getNearestParent resolve parents child = Some nearest
               ∧ r = backslashes_to_slashes (relative nearest child).
Proof.
  unfold getRelativeFromNearestParentPosix, getRelativeFromNearestParent.
  destruct (getNearestParent resolve parents child) as [nearest|]; [|done].
  cbn. intros [= <-]. split; [apply backslashes_gone | eauto].
Qed.

(** *** getNearestPymakrProjectDir *)

Lemma ancestor_S n path : ancestor dirname (S n) path = dirname (ancestor dirname n path).
Proof. revert path. induction n as [|n IH]; intros path; [done|]. cbn. apply IH. Qed.

(** Whatever the result, it is right. *)
Lemma nearest_sound fuel path :
  match getNearestPymakrProjectDir dirname join_path existsSync fuel path with
  | None => True
  | Some (Some dir) =>
      ∃ n, dir = ancestor dirname n path ∧ has_conf join_path existsSync dir = true
           ∧ ∀ m, m < n → has_conf join_path existsSync (ancestor dirname m path) = false
  | Some None => ∀ n, has_conf join_path existsSync (ancestor dirname n path) = false
  end.
Proof.
  revert path. induction fuel as [|fuel IH]; intros path; [done|].
  cbn [getNearestPymakrProjectDir]. fold (has_conf join_path existsSync path).
  destruct (has_conf join_path existsSync path) eqn:Hconf.
  - exists 0. repeat split; [done|]. intros m Hm. lia.
  - case_bool_decide as Hpar.
    + specialize (IH (dirname path)).
      destruct (getNearestPymakrProjectDir dirname join_path existsSync fuel (dirname path)) as [[dir|]|]; [| |done].
      * destruct IH as (n & -> & Hdir & Hnone). exists (S n).
        split; [done|]. split; [done|].
        intros [|m] Hm; [done|]. cbn. apply Hnone. lia.
      * intros [|n]; [done|]. cbn. apply IH.
    + assert (dirname path = path) as Hfix by (by destruct (decide (dirname path = path))).
      intros n. induction n as [|n IHn]; [done|]. cbn. by rewrite Hfix.
Qed.

Lemma nearest_at_root fuel path :
  dirname path = path → getNearestPymakrProjectDir dirname join_path existsSync (S fuel) path ≠ None.
Proof.
  intros Hfix. cbn [getNearestPymakrProjectDir].
  destruct (existsSync _); [done|].
  rewrite bool_decide_eq_false_2; [done|]. intros H. by apply H.
Qed.

Lemma nearest_terminates_aux n :
  dirname_shrinks dirname →
  ∀ path fuel, String.length path ≤ n → n + 2 ≤ fuel → getNearestPymakrProjectDir dirname join_path existsSync fuel path ≠ None.
Proof.
  intros Hshrink. induction n as [|n IH]; intros path fuel Hlen Hfuel.
  - destruct fuel as [|[|fuel]]; [lia|lia|].
    cbn [getNearestPymakrProjectDir]. destruct (existsSync _); [done|].
    case_bool_decide; [|done].
    destruct (Hshrink path) as [Hfix|Hlt]; [|lia].
    by apply nearest_at_root.
  - destruct fuel as [|fuel]; [lia|].
    cbn [getNearestPymakrProjectDir]. destruct (existsSync _); [done|].
    case_bool_decide; [|done].
    destruct (Hshrink path) as [Hfix|Hlt].
    + destruct fuel as [|fuel]; [lia|]. by apply nearest_at_root.
    + apply IH; lia.
Qed.

(** X8: with a [dirname] that leads to a shorter path or to a directory
    that is its own parent, [getNearestPymakrProjectDir] returns after at
    most two calls more than the path has characters. It returns the first
    of [path], its parent, its grandparent, ... that holds a [pymakr.conf],
    and [null] only when none of them does. *)
Theorem getNearestPymakrProjectDir_nearest path :
  dirname_shrinks dirname →
  ∃ r, getNearestPymakrProjectDir dirname join_path existsSync (String.length path + 2) path = Some r
       ∧ match r with
         | Some dir =>
             ∃ n, dir = ancestor dirname n path ∧ has_conf join_path existsSync dir = true
                  ∧ ∀ m, m < n → has_conf join_path existsSync (ancestor dirname m path) = false
         | None => ∀ n, has_conf join_path existsSync (ancestor dirname n path) = false
         end.
Proof.
  intros Hshrink.
  pose proof (nearest_terminates_aux (String.length path) Hshrink path
                (String.length path + 2) (le_n _) (le_n _)) as Hterm.
  pose proof (nearest_sound (String.length path + 2) path) as Hsound.
  destruct (getNearestPymakrProjectDir _ _ _ _ path) as [r|]; [|done]. exists r. split; [done|].
  by destruct r.
Qed.

End Paths.

(** The plain [dirname] of the examples shrinks. *)
Lemma drop_last_segment_shorter c s :
  String.length (drop_last_segment (String c s)) ≤ String.length s.
Proof.
  revert c. induction s as [|d s IH]; intros c; [cbn; done|].
  cbn [drop_last_segment]. destruct (has_char "/" (String d s)); [|cbn; lia].
  cbn [String.length]. specialize (IH d). cbn [drop_last_segment] in IH. lia.
Qed.

Lemma posix_dirname_shrinks : dirname_shrinks posix_dirname.
Proof.
  intros p. unfold posix_dirname.
  destruct (drop_last_segment p) as [|c d] eqn:Hdrop; [by left|].
  right. destruct p as [|c' p]; [done|].
  pose proof (drop_last_segment_shorter c' p) as H. rewrite Hdrop in H. cbn in *. lia.
Qed.

Lemma getRelativeFromNearestParentPosix_slashes_witness :
  getRelativeFromNearestParentPosix resolved cut_parent ["/ws"; "/ws/app"] "/ws/app\lib\x.py"
  = Some "lib/x.py"
  ∧ has_char "\" "lib/x.py" = false.
Proof.
  split; [reflexivity|].
  exact (proj1 (getRelativeFromNearestParentPosix_slashes resolved cut_parent
                  ["/ws"; "/ws/app"] "/ws/app\lib\x.py" "lib/x.py" eq_refl)).
Defined.

Lemma getNearestPymakrProjectDir_nearest_witness :
  dirname_shrinks posix_dirname
  ∧ ∃ r, getNearestPymakrProjectDir posix_dirname slash_join one_project
           (String.length "/home/me/proj/src/lib" + 2) "/home/me/proj/src/lib"
         = Some r.
Proof.
  split; [exact posix_dirname_shrinks|].
  destruct (getNearestPymakrProjectDir_nearest posix_dirname slash_join one_project
              "/home/me/proj/src/lib" posix_dirname_shrinks) as (r & Hr & _).
  exists r. exact Hr.
Defined.

(** The project two levels up is found; a child that merely starts like a
    parent counts as inside it. *)
Example nearest_project_found :
  getNearestPymakrProjectDir posix_dirname slash_join one_project 23 "/home/me/proj/src/lib"
  = Some (Some "/home/me/proj")
  ∧ getNearestPymakrProjectDir posix_dirname slash_join one_project 23 "/home/you"
    = Some None
  ∧ getNearestParent resolved ["/ws/app"] "/ws/application/main.py" = Some "/ws/app".
Proof. by vm_compute. Qed.

End PathFacts.

Module QueueFacts.
Import Queue.

Lemma queue_Inv_loop q c r n g f :
  granted (mkState q true c r n g f) ++ q = seq 0 n →
  g = f →
  Inv (loop (mkState q true c r n g f)).
Proof.
  cbn. intros Hfifo ->. unfold loop. cbn. destruct q as [|entry rest]; unfold Inv; cbn -[seq].
  - rewrite !app_nil_r in *. split_and!; [done..| |done|done].
    split; [done|]. intros [[? [=]]|[=]].
  - rewrite <- app_assoc. cbn. split_and!; [done..| |done|done].
    split; [eauto|done].
Qed.

Lemma queue_Inv_step s o : Inv s → Inv (step s o).
Proof.
  destruct s as [q ir c r n g f]. intros (Hfifo & Hone & Hrun & Hcur & Hidle).
  cbn -[seq] in *. destruct o as [|c'|]; cbn [step].
  - unfold call, runQueue. cbn. destruct ir.
    + unfold Inv. cbn -[seq]. rewrite app_assoc, Hfifo, seq_S. split_and!; naive_solver.
    + pose proof (Hidle eq_refl) as ->. rewrite app_nil_r in Hfifo.
      assert (c = None ∧ r = false) as [-> ->].
      { destruct c, r; try done; exfalso;
          (assert (false = true) by (apply Hrun; eauto); done). }
      cbn in Hone. rewrite app_nil_r in Hone. subst f.
      apply queue_Inv_loop; [|done]. cbn -[seq]. by rewrite Hfifo, seq_S.
  - unfold imDone. cbn. case_bool_decide as Hc; [|done]. subst c.
    unfold Inv. cbn -[seq]. cbn in Hone. rewrite app_nil_r.
    split_and!; [done|done| |naive_solver|].
    + split; [eauto|]. intros _. apply Hrun. eauto.
    + intros ->. assert (false = true) by (apply Hrun; eauto). done.
  - unfold continue. cbn. destruct r; [|done].
    assert (c = None) as ->.
    { destruct c; [|done]. assert (true = false) by (apply Hcur; eauto). done. }
    assert (ir = true) as -> by (apply Hrun; auto).
    cbn in Hone. rewrite app_nil_r in Hone. by apply queue_Inv_loop.
Qed.

Lemma queue_Inv_run ops : Inv (run ops).
Proof.
  unfold run. induction ops as [|o ops IH] using rev_ind.
  - unfold Inv. cbn -[seq]. split_and!; try done.
    split; [done|]. intros [[? [=]]|[=]].
  - rewrite foldl_app. cbn. by apply queue_Inv_step.
Qed.

(** X9: whatever is done with a queue, the callers that were let in
    followed by those still waiting are all callers in the order of their
    calls: turns are given first come first served and nobody is dropped. *)
Theorem createQueue_fifo ops :
  granted (run ops) ++ queue (run ops) = seq 0 (callers (run ops)).
Proof. apply queue_Inv_run. Qed.

(** X10: every caller that was let in has called its [imDone], except
    possibly the last one: no caller's turn starts before the turn before
    it was ended. *)
Theorem createQueue_one_at_a_time ops :
  granted (run ops) = finished (run ops) ++ option_list (current (run ops))
  ∧ length (granted (run ops)) ≤ S (length (finished (run ops))).
Proof.
  destruct (queue_Inv_run ops) as (_ & Hone & _). split; [done|].
  rewrite Hone, length_app. destruct (current (run ops)); cbn; lia.
Qed.

(** X11: callers wait only while somebody has the turn or the loop is
    about to go on; and when the caller that has the turn calls [imDone],
    the first waiting caller gets the turn next. *)
Theorem createQueue_no_lost_wakeup ops c :
  let s := run ops in
  (queue s ≠ [] → is_Some (current s) ∨ resumed s = true)
  ∧ (current s = Some c →
     current (step (step s (ImDone c)) Continue) = head (queue s)
     ∧ finished (step (step s (ImDone c)) Continue) = finished s ++ [c]).
Proof.
  intros s. destruct (queue_Inv_run ops) as (_ & _ & Hrun & Hcur & Hidle). fold s in Hrun, Hcur, Hidle.
  split.
  - intros Hq. apply Hrun. destruct (isRunning s); [done|]. by rewrite Hidle in Hq.
  - intros Hc. cbn [step]. unfold imDone. rewrite bool_decide_eq_true_2 by done.
    unfold continue, loop. cbn. by destruct (queue s).
Qed.

End QueueFacts.

Module ThrottleFacts.
Import Throttle.

Lemma fmap_fst_pair {A B} (b : B) (l : list A) : ((λ a, (a, b)) <$> l).*1 = l.
Proof. induction l as [|a l IH]; [done|]. cbn. by rewrite IH. Qed.

Section Throttled.
Context {Params : Type}.
Implicit Types (s : State Params) (o : Op Params).

Lemma throttle_Inv_step s o : Inv s → Inv (step s o).
Proof.
  destruct s as [ir sb ts rs n inv st]. intros (Hone & Hrun & Hsubs & Hall).
  cbn -[seq] in *.
  destruct o as [params| |r]; cbn [step].
  - unfold fnWrapper. cbn. destruct ir; unfold Inv; cbn -[seq].
    + rewrite app_assoc, Hall, seq_S. split_and!; try done; naive_solver.
    + assert (ts = [] ∧ rs = []) as [-> ->].
      { destruct ts, rs; try done; exfalso;
          (assert (false = true) by (apply Hrun; eauto); done). }
      rewrite app_assoc, Hall, seq_S. cbn. split_and!; try done; naive_solver.
  - unfold timer_fires. cbn. destruct ts as [|p ts]; [done|]. unfold Inv; cbn -[seq] in *.
    rewrite length_app. cbn. split_and!; try done; try lia.
    split; intros _; [right; by destruct rs | apply Hrun; by left].
  - unfold fn_settles. cbn. destruct rs as [|p rs]; [done|]. unfold Inv; cbn -[seq] in *.
    assert (ts = [] ∧ rs = []) as [-> ->].
    { destruct ts, rs; cbn in Hone; try done; lia. }
    rewrite fmap_app, fmap_fst_pair, app_nil_r.
    split_and!; try done; naive_solver.
Qed.

Lemma throttle_Inv_run (ops : list (Op Params)) : Inv (run ops createThrottledFunction).
Proof.
  unfold run. induction ops as [|o ops IH] using rev_ind.
  - unfold Inv. cbn -[seq]. repeat split; try done; try lia. intros [?|?]; done.
  - rewrite foldl_app. cbn. by apply throttle_Inv_step.
Qed.

(** X12: a throttled function never has more than one timer or run of
    [fn] pending in all; promises wait only while there is one; and each
    promise it returned is either settled or still subscribed. *)
Theorem createThrottledFunction_never_overlaps (ops : list (Op Params)) :
  let s := run ops createThrottledFunction in
  length (timers s) + length (running s) ≤ 1
  ∧ (subs s ≠ [] → timers s ≠ [] ∨ running s ≠ [])
  ∧ (settled s).*1 ++ subs s = seq 0 (calls s).
Proof.
  intros s. destruct (throttle_Inv_run ops) as (Hone & Hrun & Hsubs & Hall). fold s in Hone, Hrun, Hsubs, Hall.
  split; [done|]. split; [|done]. intros H. by apply Hrun, Hsubs.
Qed.

Lemma throttle_run_app (ops1 ops2 : list (Op Params)) s : run (ops1 ++ ops2) s = run ops2 (run ops1 s).
Proof. unfold run. by rewrite foldl_app. Qed.

Lemma run_called_waiting (ps : list Params) s :
  isRunning s = true →
  run (Called <$> ps) s
  = mkState true (subs s ++ seq (calls s) (length ps)) (timers s) (running s)
      (calls s + length ps) (invoked s) (settled s).
Proof.
  revert s. induction ps as [|p ps IH]; intros s Hr.
  - cbn. rewrite app_nil_r, Nat.add_0_r. destruct s; cbn in *. by subst.
  - cbn [fmap list_fmap run foldl]. fold (run (Called <$> ps) (step s (Called p))).
    rewrite IH by (cbn; unfold fnWrapper; by rewrite Hr).
    cbn. unfold fnWrapper. rewrite Hr. cbn. rewrite <- app_assoc. cbn.
    f_equal. lia.
Qed.

(** X13: starting idle, a call, further calls before the timer fires and
    further calls while [fn] runs make one batch: [fn] is invoked once, with
    the parameters of the first call, every promise of the batch is settled
    with that one outcome, and the function is idle again. *)
Theorem createThrottledFunction_batch s a bs cs r :
  idle s →
  let n := S (length bs + length cs) in
  let s' := run (Called a :: (Called <$> bs) ++ TimerFires :: (Called <$> cs) ++ [FnSettles r]) s in
  invoked s' = invoked s ++ [a]
  ∧ settled s' = settled s ++ ((λ p, (p, r)) <$> seq (calls s) n)
  ∧ calls s' = calls s + n
  ∧ idle s'.
Proof.
  intros (Hr & Hs & Ht & Hrun) n s'. subst s'.
  change (Called a :: ?l) with ([Called a] ++ l).
  change (TimerFires :: ?l) with ([TimerFires] ++ l).
  rewrite !throttle_run_app.
  destruct s as [ir sb ts rs k inv st]. cbn in Hr, Hs, Ht, Hrun. subst.
  change (run [Called a] ?x) with (fnWrapper a x).
  change (run [TimerFires] ?x) with (timer_fires x).
  change (run [FnSettles r] ?x) with (fn_settles r x).
  change (fnWrapper a _) with (mkState true [k] [a] [] (S k) inv st).
  rewrite (run_called_waiting bs) by reflexivity.
  cbn [isRunning subs timers running calls invoked settled app].
  change (timer_fires ?x)
    with (mkState true ([k] ++ seq (S k) (length bs)) [] [a] (S k + length bs) (inv ++ [a]) st).
  rewrite (run_called_waiting cs) by reflexivity.
  cbn [isRunning subs timers running calls invoked settled].
  unfold fn_settles, idle. cbn [isRunning subs timers running calls invoked settled].
  split_and!; try done.
  - f_equal. f_equal. rewrite <- app_assoc. subst n.
    change (S (length bs + length cs)) with (1 + (length bs + length cs)).
    rewrite !seq_app. cbn [seq app]. by replace (k + 1) with (S k) by lia.
  - subst n. lia.
Qed.

End Throttled.

Lemma createThrottledFunction_batch_witness :
  idle (createThrottledFunction (Params := nat))
  ∧ invoked (run (Called 1 :: (Called <$> [2]) ++ TimerFires :: (Called <$> [3])
                    ++ [FnSettles (Session.Fulfilled Js.VNull)])
               createThrottledFunction)
    = [] ++ [1].
Proof.
  assert (idle (createThrottledFunction (Params := nat))) as Hidle by done.
  split; [exact Hidle|].
  pose proof (createThrottledFunction_batch createThrottledFunction 1 [2] [3]
                (Session.Fulfilled Js.VNull) Hidle) as H.
  cbv zeta in H. destruct H as (H & _). exact H.
Defined.

End ThrottleFacts.

Module SessionMoreFacts.
Import Js Session SessionFacts Policy.

(** *** The auto-connect policy *)

Lemma should_connect_bool w :
  let autoConnect := js_or (deviceAutoConnect w) (globalAutoConnect w) in
  bool_decide (autoConnect = Some "always")
  || bool_decide (autoConnect = Some "lastState") && loadState_connected w
  || bool_decide (autoConnect = Some "onLostConnection") && lostConnection (dev w) = true
  ↔ should_connect w.
Proof.
  unfold should_connect. cbv zeta.
  rewrite !orb_true_iff, !andb_true_iff, !bool_decide_eq_true. tauto.
Qed.

Lemma updateConnection_connects w :
  online (dev w) = true → connected (dev w) = false → should_connect w →
  invocations (updateConnection w) = S (invocations w).
Proof.
  intros Hon Hcon Hshould. apply should_connect_bool in Hshould. cbv zeta in Hshould.
  unfold updateConnection. rewrite Hon, Hcon. cbn [negb andb]. rewrite Hshould.
  apply connect_invoked_once.
Qed.

Lemma updateConnection_skips w :
  online (dev w) = true → connected (dev w) = false → ¬ should_connect w →
  updateConnection w = w.
Proof.
  intros Hon Hcon Hnot. rewrite <- should_connect_bool in Hnot. cbv zeta in Hnot.
  apply not_true_is_false in Hnot.
  unfold updateConnection. rewrite Hon, Hcon. cbn [negb andb]. by rewrite Hnot.
Qed.

(** X16: for a device that is online and not connected, [updateConnection]
    invokes [connect()] exactly once when the setting is ["always"], or
    ["lastState"] with a saved record that says connected, or
    ["onLostConnection"] with [lostConnection] set; in every other case it
    does nothing. The setting of the device is used when it is truthy, the
    global setting otherwise. *)
Theorem updateConnection_policy w :
  online (dev w) = true → connected (dev w) = false →
  (should_connect w → invocations (updateConnection w) = S (invocations w))
  ∧ (¬ should_connect w → updateConnection w = w)
  ∧ (truthy (deviceAutoConnect w) = true →
     js_or (deviceAutoConnect w) (globalAutoConnect w) = deviceAutoConnect w)
  ∧ (truthy (deviceAutoConnect w) = false →
     js_or (deviceAutoConnect w) (globalAutoConnect w) = globalAutoConnect w).
Proof.
  intros Hon Hcon. split_and!.
  - by apply updateConnection_connects.
  - by apply updateConnection_skips.
  - unfold js_or. by intros ->.
  - unfold js_or. by intros ->.
Qed.

Lemma updateConnection_policy_witness :
  (online (dev board_always) = true ∧ connected (dev board_always) = false)
  ∧ invocations (updateConnection board_always) = 1.
Proof.
  split; [by split|].
  refine (proj1 (updateConnection_policy board_always eq_refl eq_refl) _).
  left. reflexivity.
Defined.

(** X17: when the device is offline, or is marked connected,
    [updateConnection] clears [connected], sets [lostConnection] if the
    device was connected, and saves the record as not connected; it invokes
    no [connect()] and makes no call to the adapter. *)
Theorem updateConnection_marks_lost w :
  online (dev w) = false ∨ connected (dev w) = true →
  let w' := updateConnection w in
  connected (dev w') = false
  ∧ lostConnection (dev w') = lostConnection (dev w) || connected (dev w)
  ∧ workspaceState w' !! state_key (dev w) = Some (mkSaved false (name (dev w)))
  ∧ loadState_connected w' = false
  ∧ invocations w' = invocations w
  ∧ issued w' = issued w ∧ tasks w' = tasks w ∧ promises w' = promises w.
Proof.
  intros Hcase. unfold updateConnection.
  assert (online (dev w) && negb (connected (dev w)) = false) as ->.
  { destruct Hcase as [-> | ->]; [done|]. by rewrite andb_false_r. }
  destruct w as [[pr ad nm cd cg on lc inf cp] nw fr ps ts iss ws dc gc tr].
  unfold loadState_connected, invocations. world_norm.
  unfold state_key, id. cbn [protocol address].
  rewrite lookup_insert_eq. cbn [saved_connected].
  rewrite List.filter_app. cbn [List.filter]. rewrite bool_decide_eq_false_2 by done.
  by rewrite app_nil_r.
Qed.

Lemma updateConnection_else w :
  online (dev w) = false ∨ connected (dev w) = true →
  updateConnection w
  = changed (with_dev (set_connected false)
               (with_dev (set_lostConnection (lostConnection (dev w) || connected (dev w))) w)).
Proof.
  intros Hcase. unfold updateConnection.
  assert (online (dev w) && negb (connected (dev w)) = false) as ->; [|done].
  destruct Hcase as [-> | ->]; [done|]. by rewrite andb_false_r.
Qed.

Lemma updateConnection_marks_lost_witness :
  (online (dev board_connected) = false ∨ connected (dev board_connected) = true)
  ∧ lostConnection (dev (updateConnection board_connected)) = true.
Proof.
  split; [by right|].
  pose proof (updateConnection_marks_lost board_connected (or_intror eq_refl)) as H.
  cbv zeta in H. destruct H as (_ & H & _). exact H.
Defined.

(** X18: a connected device that is seen to go offline and then to come
    back is marked as having lost its connection and saved as not connected;
    so with ["lastState"] it is not reconnected when it comes back, while
    with ["onLostConnection"] [connect()] is invoked once. *)
Theorem lost_then_seen_again w :
  connected (dev w) = true →
  let w1 := updateConnection (with_dev (set_online false) w) in
  let w2 := updateConnection (with_dev (set_online true) w1) in
  lostConnection (dev w1) = true ∧ connected (dev w1) = false
  ∧ (js_or (deviceAutoConnect w) (globalAutoConnect w) = Some "lastState" →
     w2 = with_dev (set_online true) w1)
  ∧ (js_or (deviceAutoConnect w) (globalAutoConnect w) = Some "onLostConnection" →
     invocations w2 = S (invocations w)).
Proof.
  intros Hcon.
  destruct w as [[pr ad nm cd cg on lc inf cp] nw fr ps ts iss ws dc gc tr].
  cbn in Hcon. subst cd.
  rewrite updateConnection_else by (left; reflexivity).
  world_norm. rewrite orb_true_r. split; [done|]. split; [done|]. split.
  - intros Hauto. unfold updateConnection, loadState_connected. world_norm.
    cbn [andb negb]. rewrite Hauto.
    unfold state_key, id. cbn [protocol address]. rewrite lookup_insert_eq.
    cbn [saved_connected]. rewrite !andb_false_r.
    by rewrite bool_decide_eq_false_2.
  - intros Hauto.
    rewrite updateConnection_connects; [|reflexivity|reflexivity|].
    + unfold invocations. world_norm. rewrite List.filter_app. cbn [List.filter].
      rewrite bool_decide_eq_false_2 by done. by rewrite app_nil_r.
    + right. right. split; [exact Hauto | done].
Qed.

Lemma lost_then_seen_again_witness :
  connected (dev board_connected) = true
  ∧ lostConnection (dev (updateConnection (with_dev (set_online false) board_connected)))
    = true.
Proof.
  split; [reflexivity|].
  pose proof (lost_then_seen_again board_connected eq_refl) as H.
  cbv zeta in H. destruct H as (H & _). exact H.
Defined.

(** *** A device that is not serial *)

Lemma step_quiescent w e :
  tasks w = [] →
  step w e = w ∨ step w e = with_now (N.succ (now w)) w.
Proof.
  intros Ht. destruct e as [c r|]; cbn [step]; rewrite Ht; cbn.
  - left. rewrite <- Ht. apply with_tasks_same.
  - right. rewrite <- Ht. by rewrite with_tasks_same.
Qed.

Lemma run_quiescent es w :
  tasks w = [] →
  ∃ n, run es w = with_now n w.
Proof.
  revert w. induction es as [|e es IH]; intros w Ht.
  - exists (now w). by destruct w.
  - cbn [run foldl]. fold (run es (step w e)).
    destruct (step_quiescent w e Ht) as [-> | ->].
    + by apply IH.
    + destruct (IH (with_now (N.succ (now w)) w) Ht) as [n ->]. by exists n.
Qed.

(** X19: on a device whose protocol is not serial, with nothing else in
    flight, [connect()] makes no call to the adapter, and whatever happens
    afterwards its promise stays pending and the device stays as connected
    as it was. *)
Theorem connect_telnet_never_settles w es :
  protocol (dev w) = Telnet → connecting (dev w) = false → tasks w = [] →
  let w' := run es (connect w).2 in
  (connect w).1 = Some (fresh w)
  ∧ promises w' !! fresh w = Some Pending
  ∧ issued w' = issued w
  ∧ connected (dev w') = connected (dev w).
Proof.
  destruct w as [[pr ad nm cd cg on lc inf cp] nw fr ps ts iss ws dc gc tr].
  intros Hp Hc Ht. cbn in Hp, Hc, Ht. subst. world_norm.
  match goal with |- context [run es ?x] =>
    destruct (run_quiescent es x eq_refl) as [n ->] end.
  world_norm. by rewrite lookup_insert_eq.
Qed.

Lemma connect_telnet_never_settles_witness :
  (protocol (dev telnet_board) = Telnet ∧ connecting (dev telnet_board) = false
   ∧ tasks telnet_board = [])
  ∧ promises (run (ticks 5000 ++ [Settle 1 (Fulfilled VUndefined)])
                (connect telnet_board).2) !! 0 = Some Pending.
Proof.
  split; [by split_and!|].
  pose proof (connect_telnet_never_settles telnet_board
                (ticks 5000 ++ [Settle 1 (Fulfilled VUndefined)])
                eq_refl eq_refl eq_refl) as H.
  cbv zeta in H. destruct H as (_ & H & _). exact H.
Defined.

(** *** Late results *)

(** X20: once [connect()] has timed out on a serial device with nothing
    else in flight, nothing that happens later changes the device, its
    promises or the calls made: in particular a transport connect that
    succeeds after the timeout is dropped and the device stays as it was. *)
Theorem connect_late_result_dropped w es :
  protocol (dev w) = Serial → connecting (dev w) = false → tasks w = [] →
  let w1 := run (ticks 2000) (connect w).2 in
  let w2 := run es w1 in
  dev w2 = dev w1 ∧ promises w2 = promises w1 ∧ issued w2 = issued w1
  ∧ (∀ r, step w1 (Settle (S (fresh w)) r) = w1).
Proof.
  destruct w as [[pr ad nm cd cg on lc inf cp] nw fr ps ts iss ws dc gc tr].
  intros Hp Hc Ht. cbn in Hp, Hc, Ht. subst. world_norm.
  times_out. settled.
  match goal with |- context [run es ?x] =>
    destruct (run_quiescent es x eq_refl) as [n ->] end.
  world_norm. done.
Qed.

Lemma connect_late_result_dropped_witness :
  (protocol (dev board) = Serial ∧ connecting (dev board) = false ∧ tasks board = [])
  ∧ dev (run [Settle 1 (Fulfilled VUndefined)] (run (ticks 2000) (connect board).2))
    = dev (run (ticks 2000) (connect board).2).
Proof.
  split; [by split_and!|].
  pose proof (connect_late_result_dropped board [Settle 1 (Fulfilled VUndefined)]
                eq_refl eq_refl eq_refl) as H.
  cbv zeta in H. destruct H as (H & _). exact H.
Defined.

(** *** The saved state *)

Lemma string_app_inv_head (s t1 t2 : string) : s +:+ t1 = s +:+ t2 → t1 = t2.
Proof.
  induction s as [|c s IH]; [done|]. rewrite !MiscFacts.append_cons. intros [= H]. auto.
Qed.

Lemma string_app_length (s t : string) :
  String.length (s +:+ t) = String.length s + String.length t.
Proof.
  induction s as [|c s IH]; [done|]. rewrite MiscFacts.append_cons. cbn. by rewrite IH.
Qed.

Lemma string_app_inv_tail (s1 s2 t : string) : s1 +:+ t = s2 +:+ t → s1 = s2.
Proof.
  revert s2. induction s1 as [|c s1 IH]; intros [|d s2] H; [done| | |].
  - apply (f_equal String.length) in H. rewrite MiscFacts.append_nil in H.
    rewrite string_app_length in H. cbn in H. lia.
  - apply (f_equal String.length) in H. rewrite MiscFacts.append_nil in H.
    rewrite string_app_length in H. cbn in H. lia.
  - rewrite !MiscFacts.append_cons in H. injection H as -> H. f_equal. by apply IH.
Qed.

Lemma id_inj d1 d2 :
  id d1 = id d2 → protocol d1 = protocol d2 ∧ address d1 = address d2.
Proof.
  unfold id. destruct (protocol d1), (protocol d2); cbn; intros H; try discriminate.
  - split; [done|]. by apply (string_app_inv_head "serial://").
  - split; [done|]. by apply (string_app_inv_head "telnet://").
Qed.

(** X21: two devices, serial or telnet, have the same key for their saved
    record only if they have the same protocol and address; what
    [saveState] writes is what
    [loadState] reads back; and saving one device leaves the record of every
    other device alone. *)
Theorem saved_state_per_device :
  (∀ d1 d2, state_key d1 = state_key d2 →
            protocol d1 = protocol d2 ∧ address d1 = address d2)
  ∧ (∀ w, loadState_connected (saveState w) = connected (dev w))
  ∧ (∀ w d, (protocol d, address d) ≠ (protocol (dev w), address (dev w)) →
            workspaceState (saveState w) !! state_key d = workspaceState w !! state_key d).
Proof.
  assert (∀ d1 d2, state_key d1 = state_key d2 →
                   protocol d1 = protocol d2 ∧ address d1 = address d2) as Hinj.
  { intros d1 d2 H. unfold state_key in H.
    apply string_app_inv_head, string_app_inv_tail in H. by apply id_inj. }
  split; [exact Hinj|]. split.
  - intros w. unfold loadState_connected, saveState. cbn.
    by rewrite lookup_insert_eq.
  - intros w d Hne. unfold saveState. cbn. apply lookup_insert_ne.
    intros H. apply Hinj in H as [H1 H2]. apply Hne. by rewrite H1, H2.
Qed.

(** X22: when the transport connect of a serial device succeeds in time,
    the saved record says connected; a device object built later for the
    same board over that saved state, with ["lastState"] as its setting,
    invokes [connect()] once when the board is seen online. *)
Theorem connected_state_survives_restart w n v g :
  protocol (dev w) = Serial → connecting (dev w) = false → tasks w = [] →
  (n < 2000)%N →
  let w2 := step (run (ticks n) (connect w).2) (Settle (S (fresh w)) (Fulfilled v)) in
  let restarted :=
    with_dev (set_online true)
      (new_world Serial (address (dev w)) (name (dev w)) (workspaceState w2)
         (Some "lastState") g) in
  workspaceState w2 !! state_key (dev w) = Some (mkSaved true (name (dev w)))
  ∧ invocations (updateConnection restarted) = 1.
Proof.
  destruct w as [[pr ad nm cd cg on lc inf cp] nw fr ps ts iss ws dc gc tr].
  intros Hp Hc Ht Hn. cbn in Hp, Hc, Ht. subst. world_norm.
  waits. settles. world_norm.
  unfold state_key at 1 2, id. cbn [protocol address]. rewrite lookup_insert_eq.
  split; [done|].
  rewrite updateConnection_connects; [done|reflexivity|reflexivity|].
  right. left. split; [done|]. unfold loadState_connected. cbn.
  unfold state_key, id. cbn. by rewrite lookup_insert_eq.
Qed.

Lemma connected_state_survives_restart_witness :
  (protocol (dev board) = Serial ∧ connecting (dev board) = false
   ∧ tasks board = [] ∧ (5 < 2000)%N)
  ∧ workspaceState (step (run (ticks 5) (connect board).2)
                      (Settle 1 (Fulfilled VUndefined))) !! state_key (dev board)
    = Some (mkSaved true "board").
Proof.
  split; [by split_and!|].
  pose proof (connected_state_survives_restart board 5 VUndefined None
                eq_refl eq_refl eq_refl eq_refl) as H.
  cbv zeta in H. destruct H as (H & _). exact H.
Defined.

End SessionMoreFacts.

Module CommandsFacts.
Import Js Transfer Commands.

(** *** Paths on the board *)

Lemma collapse_slashes_head c rest :
  ∃ rest', collapse_slashes (String c rest) = String c rest'.
Proof.
  revert c. induction rest as [|d rest IH]; intros c.
  - cbn. destruct (Ascii.eqb c "/"); eauto.
  - cbn [collapse_slashes]. destruct (Ascii.eqb c "/") eqn:Hc; [|eauto].
    destruct (Ascii.eqb d "/") eqn:Hd; [|eauto].
    apply Ascii.eqb_eq in Hc, Hd. subst. exact (IH "/"%char).
Qed.

Lemma prefix_slash s : String.prefix "/" s = true ↔ ∃ rest, s = String "/" rest.
Proof.
  destruct s as [|c s]; cbn [String.prefix].
  - split; [done|]. intros [? [=]].
  - destruct (ascii_dec "/" c) as [<-|Hne].
    + split; [eauto|]. intros _. by destruct s.
    + split; [done|]. intros [? [= ->]]. done.
Qed.

Lemma collapse_slashes_no_double s : has_double_slash (collapse_slashes s) = false.
Proof.
  induction s as [|c rest IH]; [done|].
  cbn [collapse_slashes]. destruct (Ascii.eqb c "/") eqn:Hc.
  - destruct rest as [|d rest']; [cbn; by rewrite Hc|].
    destruct (Ascii.eqb d "/") eqn:Hd; [exact IH|].
    cbn [has_double_slash]. rewrite IH, orb_false_r, Hc. cbn [andb].
    destruct (collapse_slashes_head d rest') as [r ->].
    apply not_true_iff_false. intros [r' [= -> _]]%prefix_slash.
    by rewrite Ascii.eqb_refl in Hd.
  - cbn [has_double_slash]. by rewrite Hc, IH.
Qed.

Lemma collapse_slashes_fixed s :
  has_double_slash s = false → collapse_slashes s = s.
Proof.
  induction s as [|c rest IH]; [done|].
  cbn [has_double_slash collapse_slashes].
  intros [H1 H2]%orb_false_iff. rewrite (IH H2).
  destruct (Ascii.eqb c "/") eqn:Hc; [|done].
  destruct rest as [|d rest']; [done|].
  cbn [andb] in H1. destruct (Ascii.eqb d "/") eqn:Hd; [|done].
  apply Ascii.eqb_eq in Hd. subst d. exfalso.
  apply not_true_iff_false in H1. apply H1, prefix_slash. eauto.
Qed.

Lemma substring_all s : String.substring 0 (String.length s) s = s.
Proof. induction s as [|c s IH]; [done|]. cbn. by rewrite IH. Qed.

Lemma strip_flash_flash s : strip_flash ("/flash" +:+ s) = s.
Proof.
  unfold strip_flash.
  assert (String.prefix "/flash" ("/flash" +:+ s) = true) as ->.
  { cbn. by destruct s. }
  rewrite SessionMoreFacts.string_app_length. cbn [String.length].
  replace (6 + String.length s - 6) with (String.length s) by lia.
  cbn [String.substring String.append]. apply substring_all.
Qed.

(** X23: the path [_uploadFile] writes to starts with [/flash/] and has no
    two slashes in a row, so normalising it again changes nothing; and
    [downloadProject] writes such a file to the project folder followed by
    the normalised destination, the [/flash] in front taken off again. *)
Theorem board_path_normal destination folder :
  let board := collapse_slashes ("/flash/" +:+ destination) in
  String.prefix "/flash/" board = true
  ∧ has_double_slash board = false
  ∧ collapse_slashes board = board
  ∧ destination_of folder (mkEntry board false)
    = folder +:+ collapse_slashes ("/" +:+ destination).
Proof.
  intros board.
  assert (board = "/flash" +:+ collapse_slashes ("/" +:+ destination)) as Hb.
  { subst board. reflexivity. }
  split_and!.
  - rewrite Hb. destruct (collapse_slashes_head "/" destination) as [r Hr].
    change ("/" +:+ destination) with (String "/" destination). rewrite Hr.
    cbn. by destruct r.
  - apply collapse_slashes_no_double.
  - apply collapse_slashes_fixed, collapse_slashes_no_double.
  - unfold destination_of. cbn [filename]. by rewrite Hb, strip_flash_flash.
Qed.

End CommandsFacts.

Module UploadFacts.
Import Js Transfer Commands.

Lemma Node_ind' (P : Node → Prop) :
  (∀ read, P (File read)) →
  (∀ entries, Forall (λ e, P e.2) entries → P (Dir entries)) →
  ∀ node, P node.
Proof.
  intros Hfile Hdir. fix IH 1. intros [read|entries]; [apply Hfile|].
  apply Hdir. induction entries as [|[file child] entries IHes]; constructor.
  - apply IH.
  - apply IHes.
Qed.

Section WithEnv.
Variable env : Env.

Lemma upload_dir_nil source destination h :
  _upload env (Dir []) source destination h = (Resolves VUndefined, h).
Proof. reflexivity. Qed.

Lemma upload_dir_cons file child rest source destination h :
  _upload env (Dir ((file, child) :: rest)) source destination h
  = match _upload env child (source +:+ "/" +:+ file) (destination +:+ "/" +:+ file) h with
    | (Resolves _, h') => _upload env (Dir rest) source destination h'
    | (Rejects e, h') => (Rejects e, h')
    | (Hangs, h') => (Hangs, h')
    end.
Proof. reflexivity. Qed.

Lemma file_list_cons file child rest source destination :
  file_list (Dir ((file, child) :: rest)) source destination
  = file_list child (source +:+ "/" +:+ file) (destination +:+ "/" +:+ file)
      ++ file_list (Dir rest) source destination.
Proof. reflexivity. Qed.

Lemma uploadFile_willing data file destination h :
  willing env →
  ∃ v, _uploadFile env (ReadOk data) file destination h
       = (Resolves v, h ++ upload_actions (dirname env) (file, destination, ReadOk data)).
Proof.
  intros [Hmk Hput].
  unfold _uploadFile, upload_actions, bind, try_catch, act, perform, ret, throw.
  cbn [fst snd].
  set (dest := collapse_slashes ("/flash/" +:+ destination)).
  set (h1 := h ++ [Log "trace" ("uploadFile " +:+ file +:+ " to " +:+ dest)]).
  destruct (Hput (h1 ++ [Mkdir (dirname env dest)]) dest data) as [v Hv].
  exists v.
  destruct (Hmk h1 (dirname env dest)) as [[v' ->]|(m & -> & Hm)].
  - rewrite Hv. subst h1. by rewrite <- !app_assoc.
  - cbn [message_of]. rewrite Hm, Hv. subst h1. by rewrite <- !app_assoc.
Qed.

(** X24: when the board creates every directory or has it already and
    takes every file, and every local file can be read, [_upload] resolves
    after doing, for each file of the tree in the order of the directory
    listings, its trace line, one [mkdir] of its directory and one
    [putFile], and nothing else. *)
Theorem upload_every_file node source destination h :
  willing env →
  Forall (λ f, ∃ data, f.2 = ReadOk data) (file_list node source destination) →
  ∃ v, _upload env node source destination h
       = (Resolves v,
          h ++ concat (upload_actions (dirname env) <$> file_list node source destination)).
Proof.
  intros Hwilling. revert source destination h.
  induction node as [read|entries IH] using Node_ind'; intros source destination h Hreads.
  - cbn [file_list] in *. apply Forall_singleton in Hreads as [data Hdata].
    cbn in Hdata. subst read. cbn [_upload fmap list_fmap concat]. rewrite app_nil_r.
    by apply uploadFile_willing.
  - revert h Hreads. induction IH as [|[file child] rest Hchild _ IHrest]; intros h Hreads.
    + exists VUndefined. cbn. by rewrite app_nil_r.
    + cbn [snd] in Hchild.
      rewrite file_list_cons in Hreads. apply Forall_app in Hreads as [Hr1 Hr2].
      rewrite upload_dir_cons, file_list_cons.
      destruct (Hchild (source +:+ "/" +:+ file) (destination +:+ "/" +:+ file) h Hr1)
        as [v ->].
      match goal with |- context [_upload env (Dir rest) source destination ?h'] =>
        destruct (IHrest h' Hr2) as [v' ->] end.
      exists v'. by rewrite fmap_app, concat_app, app_assoc.
Qed.

(** X25: when the upload of the first entries of a directory does not
    resolve, the entries after them are not touched: the upload of the
    whole directory ends as that of the first entries, with the same
    actions. *)
Theorem upload_stops_at_failure es1 es2 source destination h :
  (∀ v, (_upload env (Dir es1) source destination h).1 ≠ Resolves v) →
  _upload env (Dir (es1 ++ es2)) source destination h
  = _upload env (Dir es1) source destination h.
Proof.
  revert h. induction es1 as [|[file child] es1 IH]; intros h Hfail.
  - rewrite upload_dir_nil in Hfail. by destruct (Hfail VUndefined).
  - cbn [app]. rewrite !upload_dir_cons in *.
    destruct (_upload env child _ _ h) as [[v|e|] h']; [|done|done].
    by apply IH.
Qed.

Lemma upload_never_rejects root source destination h e :
  (upload env root source destination h).1 ≠ Rejects e.
Proof.
  unfold upload, try_catch.
  by destruct ((act _ ;;; upload_task env root source destination) h) as [[v|e'|] h'].
Qed.

(** X26: the [upload] command does exactly what [device.upload] does and
    nothing more: it never rejects, its own [catch] block never runs, so a
    failure is shown once, and it hangs only when [device.upload] hangs. *)
Theorem command_upload_reports_once root fsPath destination h :
  (command_upload env root fsPath destination h).2
  = (upload env root fsPath destination h).2
  ∧ (∀ e, (command_upload env root fsPath destination h).1 ≠ Rejects e)
  ∧ ((command_upload env root fsPath destination h).1 = Hangs
     ↔ (upload env root fsPath destination h).1 = Hangs).
Proof.
  pose proof (upload_never_rejects root fsPath destination h) as Hnever.
  unfold command_upload, try_catch, bind, ret.
  destruct (upload env root fsPath destination h) as [[v|e|] h'] eqn:Hup.
  - cbn. split_and!; [done|done|]. split; done.
  - by destruct (Hnever e).
  - cbn. split_and!; [done|done|]. split; done.
Qed.

End WithEnv.

Lemma willing_env_exists : willing env_exists.
Proof.
  split.
  - intros h p. right. by exists "OSError: [Errno 17] EEXIST".
  - intros h p data. by exists VUndefined.
Qed.

Lemma sample_project_readable :
  Forall (λ f, ∃ data, f.2 = ReadOk data) (file_list sample_project "proj" "/").
Proof. repeat constructor; by eexists. Qed.

Lemma upload_every_file_witness :
  (willing env_exists
   ∧ Forall (λ f, ∃ data, f.2 = ReadOk data) (file_list sample_project "proj" "/"))
  ∧ ∃ v, _upload env_exists sample_project "proj" "/" []
         = (Resolves v,
            [] ++ concat (upload_actions (dirname env_exists)
                            <$> file_list sample_project "proj" "/")).
Proof.
  split; [split; [exact willing_env_exists | exact sample_project_readable]|].
  exact (upload_every_file env_exists sample_project "proj" "/" []
           willing_env_exists sample_project_readable).
Defined.

Lemma denied_upload_fails v :
  (_upload env_denied (Dir [("main.py", File (ReadOk "a"))]) "proj" "/" []).1 ≠ Resolves v.
Proof. discriminate. Qed.

Lemma upload_stops_at_failure_witness :
  (∀ v, (_upload env_denied (Dir [("main.py", File (ReadOk "a"))]) "proj" "/" []).1
        ≠ Resolves v)
  ∧ _upload env_denied
      (Dir ([("main.py", File (ReadOk "a"))] ++ [("lib", Dir [("x.py", File (ReadOk "b"))])]))
      "proj" "/" []
    = _upload env_denied (Dir [("main.py", File (ReadOk "a"))]) "proj" "/" [].
Proof.
  split; [exact denied_upload_fails|].
  exact (upload_stops_at_failure env_denied [("main.py", File (ReadOk "a"))]
           [("lib", Dir [("x.py", File (ReadOk "b"))])] "proj" "/" [] denied_upload_fails).
Defined.

(** The files of the sample project land in [/flash]. *)
Example sample_project_uploaded :
  (_upload env_exists sample_project "proj" "/" []).2
  = [Log "trace" "uploadFile proj/main.py to /flash/main.py";
     Mkdir "/flash"; PutFile "/flash/main.py" "a";
     Log "trace" "uploadFile proj/lib/x.py to /flash/lib/x.py";
     Mkdir "/flash/lib"; PutFile "/flash/lib/x.py" "b"].
Proof. reflexivity. Qed.

End UploadFacts.

Module WaitForFacts.
Import Js WaitFor.

Lemma first_of_settled r0 r : first_of (Some r0) r = Some r0.
Proof. done. Qed.




Lemma step_disarmed s e :
  disarmed s → disarmed (step s e) ∧ actions (step s e) = actions s.
Proof.
  destruct s as [a f rc fp ps als t rs ac aw]. intros [Ht Hres]. cbn in Ht, Hres. subst t.
  destruct e as [r'| | |r']; cbn.
  - destruct ps; [done|]. unfold disarmed. cbn. by destruct a.
  - done.
  - destruct a; [done|]. subst rs. by destruct als.
  - by destruct aw.
Qed.

Lemma run_disarmed es s :
  disarmed s → actions (run es s) = actions s.
Proof.
  revert s. induction es as [|e es IH]; intros s Hd; [done|].
  cbn [run foldl]. destruct (step_disarmed s e Hd) as [Hd' <-]. by apply IH.
Qed.

(** X15: with a number as allowance, the fallback is never called once
    the primary promise is fulfilled; with a promise as allowance, it is
    never called once the primary promise has settled either way. With a
    number as allowance and a primary promise that is rejected, the timer
    is left running: when it fires the fallback function is still called,
    though the outcome stays that rejection. *)
Theorem waitFor_fallback_after_primary f es :
  (∀ v, actions (run es (step (waitFor Millis f) (PrimarySettles (Fulfilled v)))) = 0)
  ∧ (∀ r, actions (run es (step (waitFor UntilPromise f) (PrimarySettles r))) = 0)
  ∧ (∀ e, let s := step (step (waitFor Millis Action) (PrimarySettles (Rejected e)))
                     TimerFires in
          actions s = 1 ∧ race s = Some (Rejected e)).
Proof.
  split_and!.
  - intros v. by rewrite run_disarmed.
  - intros r. by rewrite run_disarmed.
  - done.
Qed.

End WaitForFacts.

Module EraseFacts.
Import Js Transfer Erase.

(** X27: [eraseDevice] rejects only with an error of the adapter's
    [remove]; once [remove] has resolved it resolves whenever
    [device.upload] settles, with just the actions of that upload, also
    when the upload of the template failed and was only reported. *)
Theorem eraseDevice_outcome env (remove : Prog JsVal) root __dirname templateId h :
  let template := templatePath __dirname templateId in
  (∀ e, (eraseDevice env remove root __dirname templateId h).1 = Rejects e →
        (remove h).1 = Rejects e)
  ∧ (∀ v h1, remove h = (Resolves v, h1) →
             (upload env root template "/" h1).1 ≠ Hangs →
             eraseDevice env remove root __dirname templateId h
             = (Resolves VUndefined, (upload env root template "/" h1).2)).
Proof.
  intros template. unfold eraseDevice, try_catch, bind, ret. fold template.
  destruct (remove h) as [[v|e|] h1] eqn:Hrm.
  - pose proof (UploadFacts.upload_never_rejects env root template "/" h1) as Hnever.
    destruct (upload env root template "/" h1) as [[v'|e'|] h2] eqn:Hup.
    + split; [done|]. intros ? ? [= <- <-] _. by rewrite Hup.
    + by destruct (Hnever e').
    + split; [done|]. intros ? ? [= <- <-] Hh. by rewrite Hup in Hh.
  - split; [|done]. intros e'. destruct e; cbn; try done; by intros [= ->].
  - split; done.
Qed.

(** An error that is [undefined] makes the [catch] block throw: the
    promise of the command is never settled. *)
Example eraseDevice_undefined_error :
  (eraseDevice env_exists (throw VUndefined) None "/ext/src/commands" "empty" []).1 = Hangs.
Proof. reflexivity. Qed.

End EraseFacts.
